(** * Project2.py: iterative-deepening depth-first search on a coloured grid

    A shallow embedding of [src/Project2.py] and the properties of its
    search engine.

    - Python integers are [Z]; strings are [string], restricted to
      ASCII, where Python's code points and bytes agree.
    - The [directions] dict is a [gmap]; the [explored] set of a node
      is a [gset] of Python values (position tuples and the bare
      integer that [set((0, 0))] yields).
    - The explicit stack is a list whose head is the top: Python's
      [stack.append] and [stack.pop] work on the end of the list, which
      is the head here.
    - A call ends in a value or in one of the two exceptions the search
      can raise ([KeyError], [IndexError]).  The [while stack:] loop is
      run on fuel; the fuel granted is shown never to be used up.
    - A returned path is a string; its properties are stated on the
      replay of that string, split at spaces and parsed label by
      label. *)

From Stdlib Require Import ZArith String Ascii Decimal DecimalString DecimalZ DecimalPos.
From stdpp Require Import base tactics option list list_numbers gmap strings.

Local Open Scope Z_scope.

(** ** Python string primitives *)

(** [c.upper()] on one ASCII character. *)
Definition ascii_upper (c : ascii) : ascii :=
  let n := nat_of_ascii c in
  if (97 <=? n)%nat && (n <=? 122)%nat then ascii_of_nat (n - 32) else c.

(** [s.upper()]. *)
Fixpoint upper (s : string) : string :=
  match s with
  | EmptyString => EmptyString
  | String c s' => String (ascii_upper c) (upper s')
  end.

(** [s[n:]]. *)
Fixpoint slice_from (n : nat) (s : string) : string :=
  match n, s with
  | O, _ => s
  | S _, EmptyString => EmptyString
  | S n', String _ s' => slice_from n' s'
  end.

(** [s[:n]]. *)
Fixpoint slice_to (n : nat) (s : string) : string :=
  match n, s with
  | O, _ => EmptyString
  | S _, EmptyString => EmptyString
  | S n', String c s' => String c (slice_to n' s')
  end.

(** [str(z)], the decimal rendering used by the f-string [f"{count}"]. *)
Definition str_of_int (z : Z) : string := NilZero.string_of_int (Z.to_int z).

(** [sep.join(parts)]. *)
Definition join (sep : string) (parts : list string) : string :=
  String.concat sep parts.

(** Truthiness of a string in [if result:]. *)
Definition truthy (s : string) : bool :=
  match s with EmptyString => false | String _ _ => true end.

(** [l[i]] on a Python list: negative indices count from the end, and
    an index outside [-len, len) raises [IndexError] ([None] here). *)
Definition py_index {A} (l : list A) (i : Z) : option A :=
  if 0 <=? i then l !! Z.to_nat i
  else if - Z.of_nat (length l) <=? i then l !! Z.to_nat (Z.of_nat (length l) + i)
  else None.

(** ** Values stored in the [explored] set *)

(** The set holds position tuples, and the bare integer that
    [set((0, 0))] produces by iterating over the tuple. *)
Inductive item : Set :=
  | Int (n : Z)
  | Tuple (r c : Z).

#[global] Instance item_eq_dec : EqDecision item.
Proof. solve_decision. Defined.

#[global] Instance item_countable : Countable item.
Proof.
  refine (inj_countable'
    (fun x => match x with Int n => inl n | Tuple r c => inr (r, c) end)
    (fun y => match y with inl n => Int n | inr (r, c) => Tuple r c end) _).
  by intros [].
Defined.

(** [set(t)] for a tuple [t] given by its components. *)
Definition set_of_tuple (t : list item) : gset item := list_to_set t.

(** ** The grid model *)

Definition grid : Type := list (list string).

Record MazeNode : Type := mkMazeNode {
  row : Z;
  col : Z;
  explored : gset item;
  path : list string;
  depth : Z
}.

(** The module-level dict [directions]. *)
Definition directions : gmap string (Z * Z) :=
  <["N" := (-1, 0)]> (
  <["NE" := (-1, 1)]> (
  <["NW" := (-1, -1)]> (
  <["S" := (1, 0)]> (
  <["SE" := (1, 1)]> (
  <["SW" := (1, -1)]> (
  <["E" := (0, 1)]> (
  <["W" := (0, -1)]> (
  <["O" := (0, 0)]> ∅)))))))).

(** Exceptions the search can raise. *)
Inductive exn : Set :=
  | KeyError      (* [directions[direction]] on an unknown key *)
  | IndexError.   (* [graph[row][col]] outside the lists *)

(** [get_next_position]: [None] stands for the [KeyError] of the dict
    lookup. *)
Definition get_next_position (direction : string) (row col : Z) : option (Z * Z) :=
  let direction := upper direction in
  match directions !! direction with
  | Some (di, dj) => Some (row + di, col + dj)
  | None => None
  end.

Definition is_valid_bound (row col final_rows final_cols : Z) : bool :=
  (0 <=? row) && (row <? final_rows) && (0 <=? col) && (col <? final_cols).

Definition manhattan_distance (row col target_row target_col : Z) : Z :=
  Z.abs (target_row - row) + Z.abs (target_col - col).

(** [graph[row][col]] with Python's list indexing. *)
Definition py_cell (graph : grid) (row col : Z) : option string :=
  match py_index graph row with
  | Some line => py_index line col
  | None => None
  end.

(** The same read behind a bounds assertion: any access outside
    [0 <= row < final_rows], [0 <= col < final_cols] is a fault. *)
Definition checked_cell (final_rows final_cols : Z) (graph : grid) (row col : Z)
  : option string :=
  if is_valid_bound row col final_rows final_cols then py_cell graph row col
  else None.

(** ** The depth-limited explorer *)

(** How a loop body ends: fall through with the current stack, leave
    the function with [return], or raise. *)
Inductive flow : Type :=
  | Continue (stack : list MazeNode)
  | Return (result : string)
  | Raise (e : exn).

(** Result of a call: a value, an exception, or fuel exhaustion of the
    model's [while] loop (shown below never to happen). *)
Inductive outcome (A : Type) : Type :=
  | Returns (a : A)
  | Raises (e : exn)
  | OutOfFuel.
Arguments Returns {A} a.
Arguments Raises {A} e.
Arguments OutOfFuel {A}.

Section Explorer.
(** The cell read [graph[r][c]]; [None] is an [IndexError]. *)
Variable cell : grid -> Z -> Z -> option string.
Variable graph : grid.
Variables final_rows final_cols max_depth target_row target_col : Z.

(** The body of [for count in range(1, max_depth + 1)], iterated over
    the remaining values of [count]; [row], [col] are the loop's
    stepping cursor. *)
Fixpoint for_count (current : MazeNode) (cur_dir cur_color : string)
    (counts : list Z) (row col : Z) (stack : list MazeNode) : flow :=
  match counts with
  | [] => Continue stack
  | count :: counts' =>
    match get_next_position cur_dir row col with
    | None => Raise KeyError
    | Some (next_row, next_col) =>
      if negb (is_valid_bound next_row next_col final_rows final_cols)
      then Continue stack
      else
        match cell graph next_row next_col with
        | None => Raise IndexError
        | Some next_tok =>
          let next_color := slice_to 1 next_tok in
          if (next_row =? target_row) && (next_col =? target_col) then
            Return (join " " (path current ++ [str_of_int count +:+ cur_dir]))
          else
            let stack' :=
              if negb (String.eqb next_color cur_color)
                 && negb (bool_decide (Tuple next_row next_col ∈ explored current))
                 && (depth current <? max_depth)
              then
                let next_node :=
                  mkMazeNode next_row next_col
                    (explored current ∪ {[Tuple next_row next_col]})
                    (path current ++ [str_of_int count +:+ cur_dir])
                    (depth current + 1) in
                if manhattan_distance next_row next_col target_row target_col
                     <=? max_depth - count
                then next_node :: stack
                else stack
              else stack in
            for_count current cur_dir cur_color counts' next_row next_col stack'
        end
    end
  end.

(** One turn of [while stack:]: pop and run the [for] loop.  On an
    empty stack the loop has ended and nothing changes. *)
Definition pop_step (stack : list MazeNode) : flow :=
  match stack with
  | [] => Continue []
  | current :: stack' =>
    match cell graph (row current) (col current) with
    | None => Raise IndexError
    | Some tok =>
      let cur_dir := slice_from 2 tok in
      let cur_color := slice_to 1 tok in
      for_count current cur_dir cur_color (seqZ 1 max_depth)
        (row current) (col current) stack'
    end
  end.

(** [while stack:] run for at most [2 ^ n] turns. *)
Fixpoint while_stack (n : nat) (stack : list MazeNode) : flow :=
  match n with
  | O => pop_step stack
  | S n' =>
    match while_stack n' stack with
    | Continue stack' => while_stack n' stack'
    | done => done
    end
  end.

(** [stack = [MazeNode(0, 0, set((0, 0)), [], 1)]]. *)
Definition initial_stack : list MazeNode :=
  [mkMazeNode 0 0 (set_of_tuple [Int 0; Int 0]) [] 1].

(** Turns granted to the [while] loop: [2 ^ (max_depth * max_depth)]. *)
Definition explore_fuel : nat := Z.to_nat max_depth * Z.to_nat max_depth.

Definition explore_with : outcome (option string) :=
  match while_stack explore_fuel initial_stack with
  | Continue [] => Returns None
  | Continue (_ :: _) => OutOfFuel
  | Return result => Returns (Some result)
  | Raise e => Raises e
  end.
End Explorer.

Definition explore_maze_depth_limited
    (graph : grid) (final_rows final_cols max_depth target_row target_col : Z)
  : outcome (option string) :=
  explore_with py_cell graph final_rows final_cols max_depth target_row target_col.

(** ** The iterative-deepening driver *)

Definition no_solution : string := "No solution found within the depth limit.".

(** [while max_depth <= max_depth_limit:] with [n] turns left. *)
Fixpoint deepen (graph : grid) (rows cols : Z) (n : nat) (max_depth : Z)
  : outcome string :=
  match n with
  | O => Returns no_solution
  | S n' =>
    match explore_maze_depth_limited graph rows cols max_depth (rows - 1) (cols - 1) with
    | Returns (Some result) =>
      if truthy result then Returns result
      else deepen graph rows cols n' (max_depth + 1)
    | Returns None => deepen graph rows cols n' (max_depth + 1)
    | Raises e => Raises e
    | OutOfFuel => OutOfFuel
    end
  end.

Definition iterative_deepening_dfs (graph : grid) (rows cols : Z) : outcome string :=
  let max_depth := 1 in
  let max_depth_limit := rows * cols in
  deepen graph rows cols (Z.to_nat (max_depth_limit - max_depth + 1)) max_depth.

Definition solve_maze_from_file (graph : grid) (rows cols : Z) : outcome string :=
  iterative_deepening_dfs graph rows cols.

(** ** Replaying a returned path *)

Definition pos : Type := (Z * Z)%type.

Definition is_digit (c : ascii) : bool :=
  let n := nat_of_ascii c in (48 <=? n)%nat && (n <=? 57)%nat.

Definition is_space (c : ascii) : bool := Ascii.eqb c " "%char.

(** The longest prefix of decimal digits, and what follows it. *)
Fixpoint span_digits (s : string) : string * string :=
  match s with
  | EmptyString => (EmptyString, EmptyString)
  | String c s' =>
    if is_digit c then
      let (ds, rest) := span_digits s' in (String c ds, rest)
    else (EmptyString, s)
  end.

(** A label ["<count><dir>"] read back as its count and direction. *)
Definition parse_label (label : string) : option (Z * string) :=
  let (ds, dir) := span_digits label in
  match NilZero.uint_of_string ds with
  | Some u => Some (Z.of_uint u, dir)
  | None => None
  end.

(** [s.split(" ")]. *)
Fixpoint split_spaces (s : string) : list string :=
  match s with
  | EmptyString => [EmptyString]
  | String c s' =>
    if is_space c then EmptyString :: split_spaces s'
    else
      match split_spaces s' with
      | w :: ws => String c w :: ws
      | [] => [String c EmptyString]
      end
  end.

(** The position [k] unit steps of delta [d] away from [p]. *)
Definition shift (d : Z * Z) (k : Z) (p : pos) : pos :=
  (p.1 + k * d.1, p.2 + k * d.2).

(** The cells stepped through by [n] unit steps from [p]. *)
Fixpoint walk (d : Z * Z) (n : nat) (p : pos) : list pos :=
  match n with
  | O => []
  | S n' => shift d 1 p :: walk d n' (shift d 1 p)
  end.

(** One replayed label: the cell it starts from and the cells it steps
    through, the last of which is where it lands. *)
Record leg : Type := mkLeg { leg_start : pos; leg_cells : list pos }.

Definition leg_end (l : leg) : pos := List.last (leg_cells l) (leg_start l).

Definition replay_label (p : pos) (label : string) : option leg :=
  match parse_label label with
  | Some (count, dir) =>
    match directions !! upper dir with
    | Some d => Some (mkLeg p (walk d (Z.to_nat count) p))
    | None => None
    end
  | None => None
  end.

Fixpoint replay (p : pos) (labels : list string) : option (list leg) :=
  match labels with
  | [] => Some []
  | label :: labels' =>
    match replay_label p label with
    | Some l =>
      match replay (leg_end l) labels' with
      | Some ls => Some (l :: ls)
      | None => None
      end
    | None => None
    end
  end.

(** Replay of a path string from the origin. *)
Definition replay_path (s : string) : option (list leg) :=
  replay (0, 0) (split_spaces s).

(** Every cell stepped through, in order (the origin excluded). *)
Definition cells (ls : list leg) : list pos := concat (map leg_cells ls).

(** The landing cell of each label, in order. *)
Definition landings (ls : list leg) : list pos := map leg_end ls.

(** Where a replay from [p] ends. *)
Definition route_end (p : pos) (ls : list leg) : pos := List.last (landings ls) p.

Definition in_bounds (final_rows final_cols : Z) (p : pos) : Prop :=
  is_valid_bound p.1 p.2 final_rows final_cols = true.

(** The colour of a cell: [graph[r][c][:1]]. *)
Definition colour (graph : grid) (p : pos) : option string :=
  slice_to 1 <$> py_cell graph p.1 p.2.

(** ** Well-formed grids *)

(** The token's direction part [tok[2:]] is one of the nine keys of
    [directions], compared case-insensitively.  A bare ["O"], as in the
    docstring's grid, has the empty direction part and is not
    recognized; ["B-O"] is. *)
Definition recognized (tok : string) : bool :=
  bool_decide (is_Some (directions !! upper (slice_from 2 tok))).

(** [rows >= 1], [cols >= 1], [rows] lines of [cols] tokens each, every
    token with a recognized direction. *)
Definition well_formed (graph : grid) (rows cols : Z) : bool :=
  (1 <=? rows) && (1 <=? cols)
  && (Z.of_nat (length graph) =? rows)
  && forallb (fun line => Z.of_nat (length line) =? cols) graph
  && forallb (forallb recognized) graph.

(** ** A termination measure for the explicit stack *)

(** An upper bound on the pops caused by a node that may still branch
    [k] levels deep when each pop pushes at most [m] nodes. *)
Fixpoint pops_bound (m k : nat) : nat :=
  match k with
  | O => 1
  | S k' => 1 + m * pops_bound m k'
  end.

Definition node_weight (max_depth : Z) (n : MazeNode) : nat :=
  pops_bound (Z.to_nat max_depth) (Z.to_nat (max_depth - depth n)).

Definition stack_weight (max_depth : Z) (stack : list MazeNode) : nat :=
  sum_list_with (node_weight max_depth) stack.

(** ** Character classes of a label *)

(** Neither a decimal digit nor a space: the characters of a direction. *)
Definition plain_char (c : ascii) : bool := negb (is_digit c) && negb (is_space c).

Fixpoint plain (s : string) : bool :=
  match s with
  | EmptyString => true
  | String c s' => plain_char c && plain s'
  end.

Fixpoint no_space (s : string) : bool :=
  match s with
  | EmptyString => true
  | String c s' => negb (is_space c) && no_space s'
  end.

Fixpoint all_digits (s : string) : bool :=
  match s with
  | EmptyString => true
  | String c s' => is_digit c && all_digits s'
  end.

(** The entries of [directions], listed. *)
Definition direction_table : list (string * (Z * Z)) :=
  [("N", (-1, 0)); ("NE", (-1, 1)); ("NW", (-1, -1)); ("S", (1, 0));
   ("SE", (1, 1)); ("SW", (1, -1)); ("E", (0, 1)); ("W", (0, -1)); ("O", (0, 0))].

(** ** What the search maintains *)

Section Routes.
Variable graph : grid.
Variables final_rows final_cols target_row target_col : Z.

(** A label marks a colour change: the cell it starts from and the
    cell it lands on differ in colour. *)
Definition colour_change (l : leg) : Prop :=
  colour graph (leg_start l) ≠ colour graph (leg_end l).

(** What a node's fields say about the route that led to it: [labels]
    replays from the origin to [here] through in-bounds cells;
    [visited] holds, besides its initial content, exactly the landing
    cells; these are pairwise distinct and none is the target; every
    label marks a colour change. *)
Record route_ok (here : pos) (visited : gset item) (labels : list string)
    (ls : list leg) : Prop := mkRouteOk {
  ro_replay : replay (0, 0) labels = Some ls;
  ro_end : route_end (0, 0) ls = here;
  ro_bounds : Forall (in_bounds final_rows final_cols) (cells ls);
  ro_explored : ∀ p : pos, Tuple p.1 p.2 ∈ visited ↔ p ∈ landings ls;
  ro_nodup : NoDup (landings ls);
  ro_target : (target_row, target_col) ∉ landings ls;
  ro_colour : Forall colour_change ls;
  ro_labels : Forall (λ label, no_space label = true) labels
}.

Definition node_ok (n : MazeNode) : Prop :=
  ∃ ls, route_ok (row n, col n) (explored n) (path n) ls.

(** What holds of a path string the explorer returns. *)
Record result_ok (s : string) (ls : list leg) : Prop := mkResultOk {
  res_replay : replay_path s = Some ls;
  res_end : route_end (0, 0) ls = (target_row, target_col);
  res_bounds : Forall (in_bounds final_rows final_cols) (cells ls);
  res_nodup : NoDup (landings ls);
  res_colour : Forall colour_change (removelast ls);
  res_truthy : truthy s = true
}.

(** The loop invariant of the explorer, read off a loop outcome:
    every node left on the stack records a sound route, and a
    returned string is a sound path. *)
Definition flow_ok (f : flow) : Prop :=
  match f with
  | Continue stack => Forall node_ok stack
  | Return s => ∃ ls, result_ok s ls
  | Raise _ => True
  end.
End Routes.

(** ** The loop, pop by pop *)

Section Pops.
Variable cell : grid -> Z -> Z -> option string.
Variable graph : grid.
Variables final_rows final_cols max_depth target_row target_col : Z.

(** [while stack:] run for exactly [k] turns, one pop at a time. *)
Fixpoint pops (k : nat) (stack : list MazeNode) : flow :=
  match k with
  | O => Continue stack
  | S k' =>
    match pop_step cell graph final_rows final_cols max_depth target_row target_col stack with
    | Continue stack' => pops k' stack'
    | done => done
    end
  end.
End Pops.

(** The loop is over: the stack is empty or the function has returned. *)
Definition finished (f : flow) : bool :=
  match f with
  | Continue [] => true
  | Continue (_ :: _) => false
  | Return _ => true
  | Raise _ => false
  end.

(** A node stands on a cell of the grid. *)
Definition node_in_bounds (final_rows final_cols : Z) (n : MazeNode) : Prop :=
  in_bounds final_rows final_cols (row n, col n).

(** ** What the labels of a path record *)

Section Rules.
Variable graph : grid.
Variables max_depth target_row target_col : Z.

(** The label carries the direction of the cell its leg starts from. *)
Definition follows_exit (label : string) (l : leg) : Prop :=
  ∃ count tok,
    parse_label label = Some (count, slice_from 2 tok) ∧
    py_cell graph (leg_start l).1 (leg_start l).2 = Some tok.

(** The label's count lies between 1 and the depth limit. *)
Definition within_limit (label : string) : Prop :=
  ∃ count dir, parse_label label = Some (count, dir) ∧ 1 ≤ count ≤ max_depth.

(** The landing cell passed the Manhattan test made with the label's
    count. *)
Definition admitted (label : string) (l : leg) : Prop :=
  ∃ count dir,
    parse_label label = Some (count, dir) ∧
    manhattan_distance (leg_end l).1 (leg_end l).2 target_row target_col
      ≤ max_depth - count.

(** The bookkeeping of a node: its path replays to its position, every
    label was written on leaving its start cell with a count within the
    limit and passed the Manhattan test, and [steps], the node's depth,
    is one more than the number of labels and within the limit. *)
Record rules_ok (here : pos) (steps : Z) (labels : list string)
    (ls : list leg) : Prop := mkRulesOk {
  ru_replay : replay (0, 0) labels = Some ls;
  ru_end : route_end (0, 0) ls = here;
  ru_exit : Forall2 follows_exit labels ls;
  ru_limit : Forall within_limit labels;
  ru_admitted : Forall2 admitted labels ls;
  ru_depth : steps = 1 + Z.of_nat (length labels);
  ru_bound : 1 ≤ max_depth → steps ≤ max_depth;
  ru_spaces : Forall (λ label, no_space label = true) labels
}.

Definition node_rules (n : MazeNode) : Prop :=
  ∃ ls, rules_ok (row n, col n) (depth n) (path n) ls.

(** The same for a returned path string; the last label lands on the
    target and takes no Manhattan test. *)
Record path_rules (s : string) (ls : list leg) : Prop := mkPathRules {
  pr_replay : replay_path s = Some ls;
  pr_exit : Forall2 follows_exit (split_spaces s) ls;
  pr_limit : Forall within_limit (split_spaces s);
  pr_length : 1 ≤ Z.of_nat (length (split_spaces s)) ≤ max_depth;
  pr_admitted : Forall2 admitted (removelast (split_spaces s)) (removelast ls)
}.

Definition flow_rules (f : flow) : Prop :=
  match f with
  | Continue stack => Forall node_rules stack
  | Return s => ∃ ls, path_rules s ls
  | Raise _ => True
  end.
End Rules.


(** ** Tokens the search cannot tell apart *)

(** The search reads a token through its first character and the
    upper-cased text after its second character only. *)
Definition read_alike (tok tok' : string) : Prop :=
  slice_to 1 tok = slice_to 1 tok' ∧
  upper (slice_from 2 tok) = upper (slice_from 2 tok').

(** Equal up to the letter case of the labels of the path. *)
Definition node_alike (n n' : MazeNode) : Prop :=
  row n = row n' ∧ col n = col n' ∧ explored n = explored n' ∧ depth n = depth n' ∧
  Forall2 (λ label label', upper label = upper label') (path n) (path n').

Definition flow_alike (f f' : flow) : Prop :=
  match f, f' with
  | Continue stack, Continue stack' => Forall2 node_alike stack stack'
  | Return s, Return s' => upper s = upper s'
  | Raise e, Raise e' => e = e'
  | _, _ => False
  end.

Definition outcome_map {A B} (f : A → B) (o : outcome A) : outcome B :=
  match o with
  | Returns a => Returns (f a)
  | Raises e => Raises e
  | OutOfFuel => OutOfFuel
  end.

(** ** Routes the explorer admits *)

Section Route.
Variable graph : grid.
Variables final_rows final_cols max_depth target_row target_col : Z.

(** The [count] cells stepped through from [p] with delta [d] are all
    inside the grid. *)
Definition run_in_bounds (d : Z * Z) (count : Z) (p : pos) : Prop :=
  ∀ j, 1 ≤ j ≤ count → in_bounds final_rows final_cols (shift d j p).

(** [route p visited steps]: from a node at [p] with explored set
    [visited] and depth [steps] the target can be reached by runs that
    pass every test of the inner loop.  A run leaves its start cell in
    that cell's direction, stays in bounds and has a count within
    [max_depth]; it either lands on the target, or lands on a cell of
    another colour that is not yet in the explored set, while the depth
    is below [max_depth] and the Manhattan test holds, and a route
    continues from there. *)
Inductive route : pos → gset item → Z → Prop :=
  | route_hit p visited steps tok d count :
      py_cell graph p.1 p.2 = Some tok →
      directions !! upper (slice_from 2 tok) = Some d →
      1 ≤ count ≤ max_depth →
      run_in_bounds d count p →
      shift d count p = (target_row, target_col) →
      route p visited steps
  | route_branch p visited steps tok d count tok' :
      py_cell graph p.1 p.2 = Some tok →
      directions !! upper (slice_from 2 tok) = Some d →
      1 ≤ count ≤ max_depth →
      run_in_bounds d count p →
      py_cell graph (shift d count p).1 (shift d count p).2 = Some tok' →
      slice_to 1 tok' ≠ slice_to 1 tok →
      Tuple (shift d count p).1 (shift d count p).2 ∉ visited →
      steps < max_depth →
      manhattan_distance (shift d count p).1 (shift d count p).2 target_row target_col
        ≤ max_depth - count →
      route (shift d count p)
        (visited ∪ {[Tuple (shift d count p).1 (shift d count p).2]}) (steps + 1) →
      route p visited steps.

(** A route continues from the node. *)
Definition has_route (n : MazeNode) : Prop :=
  route (row n, col n) (explored n) (depth n).

(** A route from the node extends to a route from the initial node. *)
Definition extends_to_route (n : MazeNode) : Prop :=
  has_route n → route (0, 0) (set_of_tuple [Int 0; Int 0]) 1.
End Route.

(** ** Grids used in the further properties *)

(** A no-movement cell in the middle of a row. *)
Definition marker_grid : grid := [ ["B-E"; "R-O"; "B-O"] ].

(** The origin looks straight at the target along the diagonal. *)
Definition diagonal_grid : grid :=
  [ ["B-SE"; "R-S"; "R-S"];
    ["R-E"; "R-N"; "B-S"];
    ["B-E"; "R-E"; "B-O"] ].

(** The crossing grid written in lower case with other separators, and
    with a surplus row and column. *)
Definition crossing_grid_variant : grid :=
  [ ["B-e"; "B:E"; "R/sw"; "?"];
    ["R-e"; "R_Se"; "R-e"; "?"];
    ["B-nE"; "R-e"; "B-o"; "?"];
    ["?"; "?"; "?"; "?"] ].

(** ** Sample grids *)

(** The grid of the module docstring. *)
Definition example_grid : grid :=
  [ ["B-S"; "R-E"; "B-SE"; "B-SW"];
    ["R-E"; "B-E"; "R-S"; "R-S"];
    ["R-N"; "R-NE"; "B-N"; "O"] ].

(** A grid whose only route steps over (1,1) inside a run and lands on
    it two labels later. *)
Definition crossing_grid : grid :=
  [ ["B-E"; "B-E"; "R-SW"];
    ["R-E"; "R-SE"; "R-E"];
    ["B-NE"; "R-E"; "B-O"] ].

(** Origin and target of one colour, side by side. *)
Definition same_colour_grid : grid := [ ["B-E"; "B-O"] ].

(** A malformed token in the target cell, which is never popped. *)
Definition unread_token_grid : grid := [ ["B-E"; "R-X"] ].

(** A malformed token in a cell the search branches into. *)
Definition popped_token_grid : grid :=
  [ ["B-E"; "R-X"];
    ["B-E"; "B-O"] ].

(** A neighbour that points back at the origin. *)
Definition revisit_grid : grid :=
  [ ["B-E"; "R-W"];
    ["B-E"; "B-O"] ].

(* ===================================================================== *)
(** * Properties *)

(** ** Labels: formatting and reading back *)

Lemma ascii_upper_plain c : plain_char (ascii_upper c) = true → plain_char c = true.
Proof. destruct c as [[] [] [] [] [] [] [] []]; vm_compute; auto. Qed.

Lemma upper_plain s : plain (upper s) = true → plain s = true.
Proof.
  induction s as [|c s IH]; simpl; [done|].
  rewrite !andb_true_iff. intros [Hc Hs]. split; [by apply ascii_upper_plain | auto].
Qed.

Lemma directions_table k d : directions !! k = Some d → (k, d) ∈ direction_table.
Proof.
  unfold directions, direction_table. intros H.
  repeat (apply lookup_insert_Some in H as [[<- <-] | [_ H]];
          [ set_solver | ]).
  by rewrite lookup_empty in H.
Qed.

Lemma directions_plain k d : directions !! k = Some d → plain k = true.
Proof.
  intros H%directions_table. unfold direction_table in H.
  rewrite !elem_of_cons, elem_of_nil in H.
  repeat (destruct H as [[= -> ->]|H]; [reflexivity|]). done.
Qed.

Lemma recognized_plain dir d : directions !! upper dir = Some d → plain dir = true.
Proof. intros H. by eapply upper_plain, directions_plain. Qed.

Lemma plain_no_space s : plain s = true → no_space s = true.
Proof.
  induction s as [|c s IH]; simpl; [done|]. unfold plain_char.
  rewrite !andb_true_iff, !negb_true_iff. intros [[_ ->] Hs]. auto.
Qed.

Lemma all_digits_no_space s : all_digits s = true → no_space s = true.
Proof.
  induction s as [|c s IH]; simpl; [done|].
  rewrite !andb_true_iff. intros [Hc Hs]. split; [|auto].
  destruct c as [[] [] [] [] [] [] [] []]; vm_compute in Hc |- *; congruence.
Qed.

Lemma no_space_app s t : no_space s = true → no_space t = true → no_space (s +:+ t) = true.
Proof.
  intros Hs Ht. induction s as [|c s IH]; simpl in *; [done|].
  apply andb_true_iff in Hs as [-> Hs]. simpl. auto.
Qed.

Lemma all_digits_uint u : all_digits (NilEmpty.string_of_uint u) = true.
Proof. induction u; simpl; auto. Qed.

Lemma span_digits_app ds rest :
  all_digits ds = true → plain rest = true → span_digits (ds +:+ rest) = (ds, rest).
Proof.
  intros Hds Hrest. induction ds as [|c ds IH]; simpl in *.
  - destruct rest as [|c rest]; [done|]. simpl in *.
    apply andb_true_iff in Hrest as [Hc _]. unfold plain_char in Hc.
    apply andb_true_iff in Hc as [Hc _]. apply negb_true_iff in Hc. by rewrite Hc.
  - apply andb_true_iff in Hds as [-> Hds]. by rewrite IH.
Qed.

Lemma str_of_int_pos (count : Z) :
  1 ≤ count → ∃ u, u ≠ Nil ∧ str_of_int count = NilEmpty.string_of_uint u ∧ Z.of_uint u = count.
Proof.
  intros Hc. destruct count as [|p|p]; try lia.
  exists (Pos.to_uint p). split; [apply Unsigned.to_uint_nonnil|]. split.
  - unfold str_of_int. simpl. unfold NilZero.string_of_uint.
    pose proof (Unsigned.to_uint_nonnil p). by destruct (Pos.to_uint p).
  - unfold Z.of_uint. by rewrite Unsigned.of_to.
Qed.

Lemma parse_label_format count dir :
  1 ≤ count → plain dir = true → parse_label (str_of_int count +:+ dir) = Some (count, dir).
Proof.
  intros Hc Hdir. destruct (str_of_int_pos count Hc) as (u & Hu & -> & <-).
  unfold parse_label. rewrite span_digits_app by (done || apply all_digits_uint).
  pose proof (NilZero.usu u Hu) as Husu.
  unfold NilZero.string_of_uint in Husu. destruct u; try done; by rewrite Husu.
Qed.

Lemma no_space_format count dir :
  1 ≤ count → plain dir = true → no_space (str_of_int count +:+ dir) = true.
Proof.
  intros Hc Hdir. destruct (str_of_int_pos count Hc) as (u & Hu & -> & <-).
  apply no_space_app; [apply all_digits_no_space, all_digits_uint | by apply plain_no_space].
Qed.

Lemma split_spaces_no_space s : no_space s = true → split_spaces s = [s].
Proof.
  induction s as [|c s IH]; simpl; [done|].
  rewrite andb_true_iff, negb_true_iff. intros [-> Hs]. by rewrite IH.
Qed.

Lemma split_spaces_app s t :
  no_space s = true → split_spaces (s +:+ " " +:+ t) = s :: split_spaces t.
Proof.
  induction s as [|c s IH]; simpl; [done|].
  rewrite andb_true_iff, negb_true_iff. intros [-> Hs]. by rewrite IH.
Qed.

Lemma split_spaces_join labels :
  labels ≠ [] → Forall (λ l, no_space l = true) labels →
  split_spaces (join " " labels) = labels.
Proof.
  intros Hne Hall. induction Hall as [|l ls Hl Hls IH]; [done|].
  destruct ls as [|l' ls].
  - simpl. by apply split_spaces_no_space.
  - change (join " " (l :: l' :: ls)) with (l +:+ " " +:+ join " " (l' :: ls)).
    rewrite split_spaces_app by done. by rewrite IH.
Qed.

(** ** Walking and replaying *)

Lemma shift_0 d p : shift d 0 p = p.
Proof. destruct p. unfold shift. simpl. f_equal; lia. Qed.

Lemma shift_shift d j k p : shift d j (shift d k p) = shift d (k + j) p.
Proof. unfold shift. simpl. f_equal; lia. Qed.

Lemma walk_shift d n k p :
  walk d n (shift d k p) = (λ i, shift d (k + Z.of_nat i) p) <$> seq 1 n.
Proof.
  revert k. induction n as [|n IH]; intros k; [done|].
  cbn [walk seq fmap list_fmap]. rewrite shift_shift, IH. f_equal.
  rewrite <- (fmap_S_seq 1), <- list_fmap_compose. apply list_fmap_ext.
  intros _ i _. simpl. f_equal. lia.
Qed.

Lemma walk_spec d n p : walk d n p = (λ i, shift d (Z.of_nat i) p) <$> seq 1 n.
Proof. rewrite <- (shift_0 d p) at 1. by rewrite walk_shift. Qed.

Lemma walk_S d n p : walk d (S n) p = walk d n p ++ [shift d (Z.of_nat (S n)) p].
Proof. by rewrite !walk_spec, seq_S, fmap_app. Qed.

Lemma walk_end d n p : List.last (walk d n p) p = shift d (Z.of_nat n) p.
Proof.
  destruct n as [|n]; [by rewrite shift_0|].
  rewrite walk_S. by rewrite last_last.
Qed.

Lemma get_next_position_shift dir d r c :
  directions !! upper dir = Some d →
  get_next_position dir r c = Some (shift d 1 (r, c)).
Proof.
  intros H. unfold get_next_position, shift. rewrite H. destruct d as [di dj]. simpl.
  do 2 f_equal; lia.
Qed.

Lemma get_next_position_None dir r c :
  directions !! upper dir = None → get_next_position dir r c = None.
Proof. intros H. unfold get_next_position. by rewrite H. Qed.

Lemma last_cons_default {A} (x : A) l d : List.last (x :: l) d = List.last l x.
Proof.
  revert x d. induction l as [|y l IH]; intros x d; [done|].
  change (List.last (x :: y :: l) d) with (List.last (y :: l) d). by rewrite !IH.
Qed.

Lemma route_end_cons p l ls : route_end p (l :: ls) = route_end (leg_end l) ls.
Proof. unfold route_end, landings. cbn [map]. apply last_cons_default. Qed.

Lemma replay_snoc p labels ls label l :
  replay p labels = Some ls →
  replay_label (route_end p ls) label = Some l →
  replay p (labels ++ [label]) = Some (ls ++ [l]).
Proof.
  revert p ls. induction labels as [|lb labels IH]; intros p ls.
  - intros [= <-]. unfold route_end. simpl. by intros ->.
  - cbn [replay app]. destruct (replay_label p lb) as [l0|] eqn:E0; [|done].
    destruct (replay (leg_end l0) labels) as [ls0|] eqn:E1; [|done].
    intros [= <-] Hl. erewrite IH; [done|done|]. by rewrite <- (route_end_cons p).
Qed.

Lemma replay_label_format p count dir d :
  1 ≤ count → directions !! upper dir = Some d →
  replay_label p (str_of_int count +:+ dir) = Some (mkLeg p (walk d (Z.to_nat count) p)).
Proof.
  intros Hc Hd. unfold replay_label.
  rewrite parse_label_format by (done || by eapply recognized_plain). by rewrite Hd.
Qed.

Lemma leg_end_walk p d count :
  0 ≤ count → leg_end (mkLeg p (walk d (Z.to_nat count) p)) = shift d count p.
Proof. intros Hc. unfold leg_end. simpl. rewrite walk_end. by rewrite Z2Nat.id. Qed.

Lemma cells_snoc ls l : cells (ls ++ [l]) = cells ls ++ leg_cells l.
Proof. unfold cells. rewrite map_app, concat_app. simpl. by rewrite app_nil_r. Qed.

Lemma landings_snoc ls l : landings (ls ++ [l]) = landings ls ++ [leg_end l].
Proof. unfold landings. by rewrite map_app. Qed.

Lemma route_end_snoc p ls l : route_end p (ls ++ [l]) = leg_end l.
Proof. unfold route_end. rewrite landings_snoc. by rewrite last_last. Qed.

(** ** Extending a route by one label *)

Lemma truthy_app s t : truthy (s +:+ t) = truthy s || truthy t.
Proof. by destruct s. Qed.

Lemma truthy_format count dir : 1 ≤ count → truthy (str_of_int count +:+ dir) = true.
Proof.
  intros Hc. destruct (str_of_int_pos count Hc) as (u & Hu & -> & _).
  rewrite truthy_app. by destruct u.
Qed.

Lemma truthy_join_snoc labels label :
  truthy label = true → truthy (join " " (labels ++ [label])) = true.
Proof.
  intros Hl. induction labels as [|l labels IH]; [done|].
  cbn [app join String.concat]. fold (join " " (labels ++ [label])).
  destruct (labels ++ [label]) eqn:E; [by destruct labels|].
  rewrite !truthy_app. simpl. by rewrite orb_true_r.
Qed.

Section RouteLemmas.
Variable graph : grid.
Variables final_rows final_cols target_row target_col : Z.

Local Abbreviation route_ok := (route_ok graph final_rows final_cols target_row target_col).
Local Abbreviation result_ok := (result_ok graph final_rows final_cols target_row target_col).

Lemma route_ok_push p visited labels ls count dir d :
  route_ok p visited labels ls →
  1 ≤ count →
  directions !! upper dir = Some d →
  Forall (in_bounds final_rows final_cols) (walk d (Z.to_nat count) p) →
  Tuple (shift d count p).1 (shift d count p).2 ∉ visited →
  shift d count p ≠ (target_row, target_col) →
  colour graph p ≠ colour graph (shift d count p) →
  route_ok (shift d count p)
    (visited ∪ {[Tuple (shift d count p).1 (shift d count p).2]})
    (labels ++ [str_of_int count +:+ dir])
    (ls ++ [mkLeg p (walk d (Z.to_nat count) p)]).
Proof.
  intros [Hrep Hend Hbnd Hexp Hnd Htgt Hcol Hlab] Hc Hd Hwalk Hfresh Hnt Hcc.
  assert (Hle : leg_end (mkLeg p (walk d (Z.to_nat count) p)) = shift d count p)
    by (apply leg_end_walk; lia).
  split.
  - apply replay_snoc; [done|]. rewrite Hend. by apply replay_label_format.
  - by rewrite route_end_snoc.
  - rewrite cells_snoc. by apply Forall_app.
  - intros q. rewrite landings_snoc, Hle, elem_of_union, elem_of_app, Hexp.
    rewrite elem_of_singleton, list_elem_of_singleton.
    destruct q as [q1 q2], (shift d count p) as [s1 s2]. cbn [fst snd].
    split; (intros [?|Heq]; [by left|right; congruence]).
  - rewrite landings_snoc, Hle. apply NoDup_app. split; [done|]. split; [|apply NoDup_singleton].
    intros q Hq ->%list_elem_of_singleton. by apply Hfresh, Hexp.
  - rewrite landings_snoc, Hle, elem_of_app, list_elem_of_singleton.
    intros [?|?]; [done|congruence].
  - apply Forall_app. split; [done|]. apply Forall_singleton.
    unfold colour_change. by rewrite Hle.
  - apply Forall_app. split; [done|]. apply Forall_singleton.
    apply no_space_format; [done|]. by eapply recognized_plain.
Qed.

Lemma route_ok_finish p visited labels ls count dir d :
  route_ok p visited labels ls →
  1 ≤ count →
  directions !! upper dir = Some d →
  Forall (in_bounds final_rows final_cols) (walk d (Z.to_nat count) p) →
  shift d count p = (target_row, target_col) →
  result_ok (join " " (labels ++ [str_of_int count +:+ dir]))
    (ls ++ [mkLeg p (walk d (Z.to_nat count) p)]).
Proof.
  intros [Hrep Hend Hbnd Hexp Hnd Htgt Hcol Hlab] Hc Hd Hwalk Hhit.
  assert (Hle : leg_end (mkLeg p (walk d (Z.to_nat count) p)) = shift d count p)
    by (apply leg_end_walk; lia).
  split.
  - unfold replay_path. rewrite split_spaces_join.
    + apply replay_snoc; [done|]. rewrite Hend. by apply replay_label_format.
    + by destruct labels.
    + apply Forall_app. split; [done|]. apply Forall_singleton.
      apply no_space_format; [done|]. by eapply recognized_plain.
  - by rewrite route_end_snoc, Hle.
  - rewrite cells_snoc. by apply Forall_app.
  - rewrite landings_snoc, Hle, Hhit. apply NoDup_app. split; [done|].
    split; [|apply NoDup_singleton]. by intros q Hq ->%list_elem_of_singleton.
  - by rewrite removelast_last.
  - by apply truthy_join_snoc, truthy_format.
Qed.
End RouteLemmas.

(** ** The invariant of the explicit stack *)

Lemma seqZ_to_nat m n : seqZ m n = seqZ m (Z.of_nat (Z.to_nat n)).
Proof. unfold seqZ. by rewrite Nat2Z.id. Qed.

Lemma seqZ_S_cons m (n : nat) :
  seqZ m (Z.of_nat (S n)) = m :: seqZ (m + 1) (Z.of_nat n).
Proof. rewrite seqZ_cons by lia. f_equal. f_equal; lia. Qed.

Section ExplorerInvariant.
Variable graph : grid.
Variables final_rows final_cols max_depth target_row target_col : Z.

Local Abbreviation route_ok := (route_ok graph final_rows final_cols target_row target_col).
Local Abbreviation node_ok := (node_ok graph final_rows final_cols target_row target_col).
Local Abbreviation flow_ok := (flow_ok graph final_rows final_cols target_row target_col).
Local Abbreviation run_for :=
  (for_count py_cell graph final_rows final_cols max_depth target_row target_col).
Local Abbreviation run_pop :=
  (pop_step py_cell graph final_rows final_cols max_depth target_row target_col).
Local Abbreviation run_while :=
  (while_stack py_cell graph final_rows final_cols max_depth target_row target_col).

Lemma for_count_unknown_direction current cur_dir cur_color counts r c stack :
  directions !! upper cur_dir = None →
  run_for current cur_dir cur_color counts r c stack =
    match counts with [] => Continue stack | _ :: _ => Raise KeyError end.
Proof.
  intros H. destruct counts; [done|]. simpl. by rewrite get_next_position_None.
Qed.

Lemma for_count_ok current cur_dir cur_color d ls :
  route_ok (row current, col current) (explored current) (path current) ls →
  colour graph (row current, col current) = Some cur_color →
  directions !! upper cur_dir = Some d →
  ∀ (n : nat) count r c stack,
    1 ≤ count →
    (r, c) = shift d (count - 1) (row current, col current) →
    Forall (in_bounds final_rows final_cols)
      (walk d (Z.to_nat (count - 1)) (row current, col current)) →
    Forall node_ok stack →
    flow_ok (run_for current cur_dir cur_color (seqZ count (Z.of_nat n)) r c stack).
Proof.
  intros Hroute Hcolour Hd. induction n as [|n IH]; intros count r c stack Hc Hcur Hwalk Hstack.
  { by rewrite seqZ_nil. }
  rewrite seqZ_S_cons. cbn [for_count].
  set (here := (row current, col current)) in *.
  assert (Hnext : get_next_position cur_dir r c = Some (shift d count here)).
  { rewrite (get_next_position_shift _ d) by done. rewrite Hcur, shift_shift.
    do 2 f_equal. lia. }
  rewrite Hnext. destruct (shift d count here) as [next_row next_col] eqn:Hq.
  destruct (is_valid_bound next_row next_col final_rows final_cols) eqn:Hvalid; [|done].
  cbn [negb].
  assert (Hwalk' : Forall (in_bounds final_rows final_cols) (walk d (Z.to_nat count) here)).
  { replace (Z.to_nat count) with (S (Z.to_nat (count - 1))) by lia.
    rewrite walk_S. apply Forall_app. split; [done|]. apply Forall_singleton.
    replace (Z.of_nat (S (Z.to_nat (count - 1)))) with count by lia. by rewrite Hq. }
  destruct (py_cell graph next_row next_col) as [next_tok|] eqn:Hcell; [|done].
  destruct ((next_row =? target_row) && (next_col =? target_col)) eqn:Htarget.
  { apply andb_true_iff in Htarget as [->%Z.eqb_eq ->%Z.eqb_eq].
    eexists. by eapply route_ok_finish. }
  apply IH; [lia| |by replace (count + 1 - 1) with count by lia|].
  { replace (count + 1 - 1) with count by lia. done. }
  destruct (negb (String.eqb (slice_to 1 next_tok) cur_color)) eqn:Hcol; [|done].
  destruct (bool_decide (Tuple next_row next_col ∈ explored current)) eqn:Hseen; [done|].
  cbn [negb andb].
  destruct (depth current <? max_depth); [|done].
  destruct (manhattan_distance next_row next_col target_row target_col <=? max_depth - count);
    [|done].
  apply Forall_cons. split; [|done].
  exists (ls ++ [mkLeg here (walk d (Z.to_nat count) here)]). cbn [row col explored path].
  pose proof (route_ok_push graph final_rows final_cols target_row target_col
    here _ _ _ count cur_dir d Hroute Hc Hd Hwalk') as Hpush.
  rewrite Hq in Hpush. apply Hpush.
  - by apply bool_decide_eq_false in Hseen.
  - intros [= -> ->]. by rewrite !Z.eqb_refl in Htarget.
  - rewrite Hcolour. unfold colour. cbn [fst snd]. rewrite Hcell. cbn [fmap option_fmap option_map].
    apply negb_true_iff, String.eqb_neq in Hcol. congruence.
Qed.

Lemma pop_step_ok stack : Forall node_ok stack → flow_ok (run_pop stack).
Proof.
  intros Hstack. destruct Hstack as [|current stack [ls Hroute] Hstack]; [by constructor|].
  cbn [pop_step].
  destruct (py_cell graph (row current) (col current)) as [tok|] eqn:Hcell; [|done].
  destruct (directions !! upper (slice_from 2 tok)) as [d|] eqn:Hd.
  - rewrite seqZ_to_nat. eapply for_count_ok; try done.
    + unfold colour. cbn [fst snd]. by rewrite Hcell.
    + by rewrite shift_0.
  - rewrite for_count_unknown_direction by done. by destruct (seqZ 1 max_depth).
Qed.

Lemma while_stack_ok n stack : Forall node_ok stack → flow_ok (run_while n stack).
Proof.
  revert stack. induction n as [|n IH]; intros stack Hstack; [by apply pop_step_ok|].
  cbn [while_stack]. pose proof (IH stack Hstack) as H1.
  destruct (while_stack _ _ _ _ _ _ _ n stack) as [stack'| |]; [by apply IH|done..].
Qed.

Lemma initial_stack_ok : Forall node_ok initial_stack.
Proof.
  apply Forall_singleton. exists []. split.
  - done.
  - done.
  - constructor.
  - intros p. cbn [explored landings map]. unfold set_of_tuple. rewrite elem_of_list_to_set, !elem_of_cons.
    rewrite !elem_of_nil. split; [by intros [|[|]]|done].
  - constructor.
  - apply not_elem_of_nil.
  - constructor.
  - constructor.
Qed.

Lemma explore_result_ok s :
  explore_maze_depth_limited graph final_rows final_cols max_depth target_row target_col
    = Returns (Some s) →
  ∃ ls, result_ok graph final_rows final_cols target_row target_col s ls.
Proof.
  unfold explore_maze_depth_limited, explore_with.
  pose proof (while_stack_ok
    (explore_fuel max_depth) initial_stack initial_stack_ok) as H.
  destruct (while_stack _ _ _ _ _ _ _ _ _) as [[|? ?]|s'|]; try done.
  by intros [= <-].
Qed.
End ExplorerInvariant.

(** ** Termination of the [while] loop *)

Lemma pops_bound_pos m k : (1 ≤ pops_bound m k)%nat.
Proof. destruct k; simpl; lia. Qed.

Lemma pops_bound_pow m k : (pops_bound m k ≤ (m + 1) ^ k)%nat.
Proof.
  induction k as [|k IH]; [done|].
  cbn [pops_bound Nat.pow]. pose proof (pops_bound_pos m k). nia.
Qed.

Lemma succ_le_pow2 m : (m + 1 ≤ 2 ^ m)%nat.
Proof. induction m as [|m IH]; [done|]. cbn [Nat.pow]. lia. Qed.

Lemma pops_bound_pow2 m k : (k ≤ m → pops_bound m k ≤ 2 ^ (m * m))%nat.
Proof.
  intros Hk. etrans; [apply pops_bound_pow|].
  etrans; [apply Nat.pow_le_mono_l, succ_le_pow2|].
  rewrite <- Nat.pow_mul_r. apply Nat.pow_le_mono_r; [done|]. nia.
Qed.

Lemma stack_weight_app md s1 s2 :
  stack_weight md (s1 ++ s2) = (stack_weight md s1 + stack_weight md s2)%nat.
Proof. apply sum_list_with_app. Qed.

Lemma stack_weight_uniform md w s :
  Forall (λ n, node_weight md n = w) s → stack_weight md s = (length s * w)%nat.
Proof.
  unfold stack_weight. induction 1 as [|n s Hn Hs IH]; [done|].
  cbn [sum_list_with length]. rewrite IH, Hn. lia.
Qed.

Section Termination.
Variable cell : grid -> Z -> Z -> option string.
Variable graph : grid.
Variables final_rows final_cols max_depth target_row target_col : Z.

Local Abbreviation run_for :=
  (for_count cell graph final_rows final_cols max_depth target_row target_col).
Local Abbreviation run_pop :=
  (pop_step cell graph final_rows final_cols max_depth target_row target_col).
Local Abbreviation run_while :=
  (while_stack cell graph final_rows final_cols max_depth target_row target_col).
Local Abbreviation run_pops :=
  (pops cell graph final_rows final_cols max_depth target_row target_col).

(** What one [for] loop appends to the stack. *)
Lemma for_count_pushes current cur_dir cur_color counts r c stack stack' :
  run_for current cur_dir cur_color counts r c stack = Continue stack' →
  ∃ pushed,
    stack' = pushed ++ stack ∧
    (length pushed ≤ length counts)%nat ∧
    Forall (λ n, depth n = depth current + 1 ∧ depth current < max_depth ∧
                 in_bounds final_rows final_cols (row n, col n)) pushed.
Proof.
  revert r c stack. induction counts as [|count counts IH]; intros r c stack.
  { intros [= <-]. exists []. by repeat split. }
  cbn [for_count].
  destruct (get_next_position cur_dir r c) as [[next_row next_col]|]; [|done].
  destruct (is_valid_bound next_row next_col final_rows final_cols) eqn:Hvalid; cbn [negb].
  2:{ intros [= <-]. exists []. repeat split; [simpl; lia|constructor]. }
  destruct (cell graph next_row next_col) as [next_tok|]; [|done].
  destruct ((next_row =? target_row) && (next_col =? target_col)); [done|].
  intros (pushed & -> & Hlen & Hall)%IH.
  destruct (negb (String.eqb (slice_to 1 next_tok) cur_color)
            && negb (bool_decide (Tuple next_row next_col ∈ explored current))
            && (depth current <? max_depth)) eqn:Hcond.
  2:{ exists pushed. repeat split; [simpl; lia|done]. }
  destruct (manhattan_distance next_row next_col target_row target_col <=? max_depth - count).
  2:{ exists pushed. repeat split; [simpl; lia|done]. }
  eexists (pushed ++ [_]). split; [by rewrite <- app_assoc|].
  split; [rewrite length_app; simpl; lia|].
  apply Forall_app. split; [done|]. apply Forall_singleton. cbn [depth row col].
  apply andb_true_iff in Hcond as [_ Hd%Z.ltb_lt]. done.
Qed.

Lemma pop_step_weight current stack stack' :
  run_pop (current :: stack) = Continue stack' →
  (stack_weight max_depth stack' + 1 ≤ stack_weight max_depth (current :: stack))%nat.
Proof.
  cbn [pop_step]. destruct (cell graph (row current) (col current)) as [tok|]; [|done].
  intros (pushed & -> & Hlen & Hall)%for_count_pushes.
  rewrite length_seqZ in Hlen.
  rewrite stack_weight_app. change (current :: stack) with ([current] ++ stack).
  rewrite (stack_weight_app _ [current]). 
  enough (stack_weight max_depth pushed + 1 ≤ stack_weight max_depth [current])%nat by lia.
  unfold stack_weight at 2. cbn [sum_list_with]. rewrite Nat.add_0_r.
  destruct pushed as [|n pushed].
  { pose proof (pops_bound_pos (Z.to_nat max_depth) (Z.to_nat (max_depth - depth current))).
    unfold node_weight. simpl. lia. }
  pose proof (Forall_inv Hall) as (_ & Hdepth & _).
  rewrite (stack_weight_uniform max_depth
    (pops_bound (Z.to_nat max_depth) (Z.to_nat (max_depth - depth current - 1)))).
  2:{ eapply Forall_impl; [exact Hall|]. intros n' (Hn & _ & _). unfold node_weight.
      rewrite Hn. f_equal. lia. }
  unfold node_weight.
  replace (Z.to_nat (max_depth - depth current))
    with (S (Z.to_nat (max_depth - depth current - 1))) by lia.
  cbn [pops_bound]. nia.
Qed.

Lemma pop_step_nil : run_pop [] = Continue [].
Proof. done. Qed.

Lemma pops_nil k : run_pops k [] = Continue [].
Proof. induction k; [done|]. by cbn [pops]. Qed.

Lemma pops_add j k stack :
  run_pops (j + k) stack =
    match run_pops j stack with
    | Continue stack' => run_pops k stack'
    | done => done
    end.
Proof.
  revert stack. induction j as [|j IH]; intros stack; [done|].
  cbn [Nat.add pops]. by destruct (run_pop stack).
Qed.

(** The binary-fuelled loop is the pop-by-pop loop run [2 ^ n] times. *)
Lemma while_stack_pops n stack : run_while n stack = run_pops (2 ^ n) stack.
Proof.
  revert stack. induction n as [|n IH]; intros stack.
  - cbn. by destruct (run_pop stack).
  - cbn [while_stack]. replace (2 ^ S n)%nat with (2 ^ n + 2 ^ n)%nat by (simpl; lia).
    rewrite pops_add, !IH.
    destruct (run_pops (2 ^ n) stack); [apply IH|done..].
Qed.

Lemma pops_weight k stack stack' :
  run_pops k stack = Continue stack' →
  stack' = [] ∨ (stack_weight max_depth stack' + k ≤ stack_weight max_depth stack)%nat.
Proof.
  revert stack. induction k as [|k IH]; intros stack.
  { intros [= <-]. right. lia. }
  cbn [pops]. destruct stack as [|current stack].
  { rewrite pop_step_nil, pops_nil. intros [= <-]. by left. }
  destruct (run_pop (current :: stack)) as [stack1| |] eqn:Hpop; [|done..].
  apply pop_step_weight in Hpop. intros [->|Hw]%IH; [by left|right; lia].
Qed.

Lemma initial_weight :
  (stack_weight max_depth initial_stack ≤ 2 ^ explore_fuel max_depth)%nat.
Proof.
  unfold stack_weight, initial_stack, node_weight, explore_fuel. cbn [sum_list_with depth].
  rewrite Nat.add_0_r. apply pops_bound_pow2. lia.
Qed.

(** The fuel granted by [explore_with] is never used up. *)
Lemma explore_with_fuel :
  explore_with cell graph final_rows final_cols max_depth target_row target_col ≠ OutOfFuel.
Proof.
  unfold explore_with. rewrite while_stack_pops.
  destruct (run_pops _ _) as [[|n stack]| |] eqn:Hrun; try done.
  apply pops_weight in Hrun as [?|Hw]; [done|].
  pose proof initial_weight. 
  assert (1 ≤ stack_weight max_depth (n :: stack))%nat; [|lia].
  unfold stack_weight. cbn [sum_list_with].
  pose proof (pops_bound_pos (Z.to_nat max_depth) (Z.to_nat (max_depth - depth n))).
  unfold node_weight. lia.
Qed.
End Termination.

Lemma stack_weight_cons_pos md n stack : (1 ≤ stack_weight md (n :: stack))%nat.
Proof.
  unfold stack_weight. cbn [sum_list_with]. unfold node_weight.
  pose proof (pops_bound_pos (Z.to_nat md) (Z.to_nat (md - depth n))). lia.
Qed.

(** A stack that is not yet empty after [k] pops was reached within the
    fuel of [explore_with]. *)
Lemma pops_within_fuel cell graph rows cols md tr tc k n stack :
  pops cell graph rows cols md tr tc k initial_stack = Continue (n :: stack) →
  (k + 1 ≤ 2 ^ explore_fuel md)%nat.
Proof.
  intros [?|Hw]%pops_weight; [done|].
  pose proof (initial_weight md). pose proof (stack_weight_cons_pos md n stack). lia.
Qed.

(** ** Well-formed grids: every in-bounds cell exists and is recognized *)

Lemma well_formed_inv graph rows cols :
  well_formed graph rows cols = true →
  1 ≤ rows ∧ 1 ≤ cols ∧ Z.of_nat (length graph) = rows ∧
  Forall (λ line, Z.of_nat (length line) = cols) graph ∧
  Forall (Forall (λ tok, recognized tok = true)) graph.
Proof.
  unfold well_formed. rewrite !andb_true_iff, !forallb_forall, !Z.leb_le, Z.eqb_eq.
  intros ((((? & ?) & ?) & Hw) & Ht). repeat split; try done.
  - apply Forall_forall. intros line Hin%list_elem_of_In. by apply Z.eqb_eq, Hw.
  - apply Forall_forall. intros line Hin%list_elem_of_In. apply Forall_forall.
    intros tok Htok%list_elem_of_In. specialize (Ht line Hin).
    rewrite forallb_forall in Ht. by apply Ht.
Qed.

Lemma py_index_nonneg {A} (l : list A) i :
  0 ≤ i → py_index l i = l !! Z.to_nat i.
Proof. intros Hi. unfold py_index. by rewrite (proj2 (Z.leb_le 0 i)). Qed.

Lemma well_formed_cell graph rows cols r c :
  well_formed graph rows cols = true →
  is_valid_bound r c rows cols = true →
  ∃ tok, py_cell graph r c = Some tok ∧ recognized tok = true.
Proof.
  intros (_ & _ & Hlen & Hwidth & Htoks)%well_formed_inv.
  unfold is_valid_bound. rewrite !andb_true_iff, !Z.leb_le, !Z.ltb_lt.
  intros (((Hr0 & Hr1) & Hc0) & Hc1).
  destruct (lookup_lt_is_Some_2 graph (Z.to_nat r)) as [line Hline]; [lia|].
  rewrite Forall_lookup in Hwidth. specialize (Hwidth _ _ Hline).
  rewrite Forall_lookup in Htoks. specialize (Htoks _ _ Hline).
  destruct (lookup_lt_is_Some_2 line (Z.to_nat c)) as [tok Htok]; [lia|].
  rewrite Forall_lookup in Htoks. specialize (Htoks _ _ Htok).
  exists tok. split; [|done].
  unfold py_cell. rewrite py_index_nonneg, Hline by done. by rewrite py_index_nonneg.
Qed.

Lemma recognized_direction tok :
  recognized tok = true ↔ ∃ d, directions !! upper (slice_from 2 tok) = Some d.
Proof. unfold recognized. by rewrite bool_decide_eq_true. Qed.

Lemma unrecognized_direction tok :
  recognized tok = false ↔ directions !! upper (slice_from 2 tok) = None.
Proof.
  unfold recognized. rewrite bool_decide_eq_false, <- eq_None_not_Some. done.
Qed.

Section Bounds.
Variable cell : grid -> Z -> Z -> option string.
Variable graph : grid.
Variables final_rows final_cols max_depth target_row target_col : Z.

Local Abbreviation in_grid := (node_in_bounds final_rows final_cols).

Lemma pop_step_in_bounds stack stack' :
  Forall in_grid stack →
  pop_step cell graph final_rows final_cols max_depth target_row target_col stack
    = Continue stack' →
  Forall in_grid stack'.
Proof.
  intros Hstack. destruct Hstack as [|current stack Hcur Hstack]; [by intros [= <-]|].
  cbn [pop_step]. destruct (cell graph (row current) (col current)) as [tok|]; [|done].
  intros (pushed & -> & _ & Hall)%for_count_pushes. apply Forall_app. split; [|done].
  eapply Forall_impl; [exact Hall|]. by intros n (_ & _ & ?).
Qed.

Lemma pops_in_bounds k stack stack' :
  Forall in_grid stack →
  pops cell graph final_rows final_cols max_depth target_row target_col k stack
    = Continue stack' →
  Forall in_grid stack'.
Proof.
  revert stack. induction k as [|k IH]; intros stack Hstack; [by intros [= <-]|].
  cbn [pops].
  destruct (pop_step _ _ _ _ _ _ _ stack) as [stack1| |] eqn:Hpop; [|done..].
  apply IH. by eapply pop_step_in_bounds.
Qed.

Lemma initial_stack_in_bounds :
  1 ≤ final_rows → 1 ≤ final_cols → Forall in_grid initial_stack.
Proof.
  intros Hr Hc. apply Forall_singleton. unfold node_in_bounds, in_bounds, is_valid_bound.
  cbn [row col fst snd]. rewrite !andb_true_iff, !Z.leb_le, !Z.ltb_lt. lia.
Qed.
End Bounds.

(** ** The bounds check precedes every read *)

Section Checked.
Variable graph : grid.
Variables final_rows final_cols max_depth target_row target_col : Z.

Local Abbreviation checked := (checked_cell final_rows final_cols).
Local Abbreviation in_grid := (node_in_bounds final_rows final_cols).

Lemma for_count_checked current cur_dir cur_color counts r c stack :
  for_count checked graph final_rows final_cols max_depth target_row target_col
    current cur_dir cur_color counts r c stack
  = for_count py_cell graph final_rows final_cols max_depth target_row target_col
    current cur_dir cur_color counts r c stack.
Proof.
  revert r c stack. induction counts as [|count counts IH]; intros r c stack; [done|].
  cbn [for_count].
  destruct (get_next_position cur_dir r c) as [[next_row next_col]|]; [|done].
  destruct (is_valid_bound next_row next_col final_rows final_cols) eqn:Hvalid; [|done].
  cbn [negb]. unfold checked_cell at 1. rewrite Hvalid.
  destruct (py_cell graph next_row next_col) as [next_tok|]; [|done].
  destruct ((next_row =? target_row) && (next_col =? target_col)); [done|].
  apply IH.
Qed.

Lemma pop_step_checked stack :
  Forall in_grid stack →
  pop_step checked graph final_rows final_cols max_depth target_row target_col stack
  = pop_step py_cell graph final_rows final_cols max_depth target_row target_col stack.
Proof.
  intros [|current stack' Hcur _]; [done|]. cbn [pop_step].
  unfold checked_cell at 1. unfold node_in_bounds, in_bounds in Hcur. cbn [fst snd] in Hcur.
  rewrite Hcur. destruct (py_cell graph (row current) (col current)); [|done].
  apply for_count_checked.
Qed.

Lemma pops_checked k stack :
  Forall in_grid stack →
  pops checked graph final_rows final_cols max_depth target_row target_col k stack
  = pops py_cell graph final_rows final_cols max_depth target_row target_col k stack.
Proof.
  revert stack. induction k as [|k IH]; intros stack Hstack; [done|].
  cbn [pops]. rewrite pop_step_checked by done.
  destruct (pop_step py_cell _ _ _ _ _ _ stack) as [stack1| |] eqn:Hpop; [|done..].
  apply IH. by eapply pop_step_in_bounds.
Qed.

Lemma explore_with_checked :
  1 ≤ final_rows → 1 ≤ final_cols →
  explore_with checked graph final_rows final_cols max_depth target_row target_col
  = explore_maze_depth_limited graph final_rows final_cols max_depth target_row target_col.
Proof.
  intros Hr Hc. unfold explore_maze_depth_limited, explore_with.
  rewrite !while_stack_pops, pops_checked; [done|].
  by apply initial_stack_in_bounds.
Qed.
End Checked.

(** ** On a well-formed grid the explorer raises nothing *)

Section Total.
Variable graph : grid.
Variables final_rows final_cols max_depth target_row target_col : Z.
Hypothesis Hwf : well_formed graph final_rows final_cols = true.

Local Abbreviation in_grid := (node_in_bounds final_rows final_cols).

Lemma for_count_no_raise current cur_dir cur_color counts r c stack d e :
  directions !! upper cur_dir = Some d →
  for_count py_cell graph final_rows final_cols max_depth target_row target_col
    current cur_dir cur_color counts r c stack ≠ Raise e.
Proof.
  intros Hd. revert r c stack. induction counts as [|count counts IH]; intros r c stack; [done|].
  cbn [for_count]. rewrite (get_next_position_shift _ d) by done.
  destruct (shift d 1 (r, c)) as [next_row next_col].
  destruct (is_valid_bound next_row next_col final_rows final_cols) eqn:Hvalid; [|done].
  cbn [negb]. destruct (well_formed_cell _ _ _ _ _ Hwf Hvalid) as (tok & -> & _).
  destruct ((next_row =? target_row) && (next_col =? target_col)); [done|].
  apply IH.
Qed.

Lemma pop_step_no_raise stack e :
  Forall in_grid stack →
  pop_step py_cell graph final_rows final_cols max_depth target_row target_col stack
    ≠ Raise e.
Proof.
  intros [|current stack' Hcur _]; [done|]. cbn [pop_step].
  destruct (well_formed_cell _ _ _ _ _ Hwf Hcur) as (tok & Htok & [d Hd]%recognized_direction).
  cbn [fst snd] in Htok. rewrite Htok. by eapply for_count_no_raise.
Qed.

Lemma pops_no_raise k stack e :
  Forall in_grid stack →
  pops py_cell graph final_rows final_cols max_depth target_row target_col k stack
    ≠ Raise e.
Proof.
  revert stack. induction k as [|k IH]; intros stack Hstack; [done|].
  cbn [pops].
  destruct (pop_step _ _ _ _ _ _ _ stack) as [stack1| |e'] eqn:Hpop; [|done|].
  - apply IH. by eapply pop_step_in_bounds.
  - by apply pop_step_no_raise in Hpop.
Qed.

(** The explorer returns: a path, or [None]. *)
Lemma explore_total :
  ∃ r, explore_maze_depth_limited graph final_rows final_cols max_depth
         target_row target_col = Returns r.
Proof.
  destruct (well_formed_inv _ _ _ Hwf) as (Hr & Hc & _).
  pose proof (explore_with_fuel py_cell graph final_rows final_cols max_depth
    target_row target_col) as Hfuel.
  pose proof (pops_no_raise (2 ^ explore_fuel max_depth) initial_stack) as Hraise.
  unfold explore_maze_depth_limited, explore_with in *.
  rewrite while_stack_pops in *.
  destruct (pops _ _ _ _ _ _ _ _ _) as [[|? ?]|s|e]; eauto.
  - done.
  - exfalso. eapply Hraise; [|done]. by apply initial_stack_in_bounds.
Qed.
End Total.

(** ** The driver *)

Lemma result_ok_not_sentinel graph rows cols tr tc s ls :
  result_ok graph rows cols tr tc s ls → s ≠ no_solution.
Proof. intros [Hrep _ _ _ _ _] ->. by vm_compute in Hrep. Qed.

Lemma deepen_result graph rows cols n d s :
  deepen graph rows cols n d = Returns s →
  s = no_solution ∨ ∃ ls, result_ok graph rows cols (rows - 1) (cols - 1) s ls.
Proof.
  revert d. induction n as [|n IH]; intros d; [intros [= <-]; by left|].
  cbn [deepen].
  destruct (explore_maze_depth_limited graph rows cols d (rows - 1) (cols - 1))
    as [[p|]| |] eqn:Hexp; [|by apply IH|done..].
  destruct (truthy p); [|by apply IH].
  intros [= <-]. right. by eapply explore_result_ok.
Qed.

Lemma solve_result graph rows cols s :
  solve_maze_from_file graph rows cols = Returns s → s ≠ no_solution →
  ∃ ls, result_ok graph rows cols (rows - 1) (cols - 1) s ls.
Proof. intros [?|?]%deepen_result; done. Qed.

(** Failed attempts are skipped one depth at a time. *)
Lemma deepen_skip graph rows cols n d :
  explore_maze_depth_limited graph rows cols d (rows - 1) (cols - 1) = Returns None →
  deepen graph rows cols (S n) d = deepen graph rows cols n (d + 1).
Proof. intros H. cbn [deepen]. by rewrite H. Qed.

Lemma deepen_skip_many graph rows cols n k d :
  (∀ d', d ≤ d' < d + Z.of_nat k →
     explore_maze_depth_limited graph rows cols d' (rows - 1) (cols - 1) = Returns None) →
  deepen graph rows cols (k + n) d = deepen graph rows cols n (d + Z.of_nat k).
Proof.
  revert d. induction k as [|k IH]; intros d Hnone.
  { cbn. f_equal. lia. }
  cbn [Nat.add]. rewrite deepen_skip by (apply Hnone; lia). rewrite IH.
  - f_equal. lia.
  - intros d' Hd'. apply Hnone. lia.
Qed.

Lemma deepen_spec graph rows cols n d0 :
  well_formed graph rows cols = true →
  (∃ d p, d0 ≤ d < d0 + Z.of_nat n ∧
     (∀ d', d0 ≤ d' < d →
        explore_maze_depth_limited graph rows cols d' (rows - 1) (cols - 1) = Returns None) ∧
     explore_maze_depth_limited graph rows cols d (rows - 1) (cols - 1) = Returns (Some p) ∧
     deepen graph rows cols n d0 = Returns p ∧ p ≠ no_solution)
  ∨ ((∀ d, d0 ≤ d < d0 + Z.of_nat n →
        explore_maze_depth_limited graph rows cols d (rows - 1) (cols - 1) = Returns None) ∧
     deepen graph rows cols n d0 = Returns no_solution).
Proof.
  intros Hwf. revert d0. induction n as [|n IH]; intros d0.
  { right. split; [intros d; lia|done]. }
  destruct (explore_total graph rows cols d0 (rows - 1) (cols - 1) Hwf) as [[p|] Hexp].
  - left. exists d0, p. destruct (explore_result_ok _ _ _ _ _ _ _ Hexp) as [ls Hok].
    split; [lia|]. split; [intros d'; lia|]. split; [done|]. split.
    + cbn [deepen]. rewrite Hexp. by rewrite (res_truthy _ _ _ _ _ _ _ Hok).
    + by eapply result_ok_not_sentinel.
  - rewrite deepen_skip by done.
    destruct (IH (d0 + 1)) as [(d & p & Hd & Hnone & Hsome & Hret & Hp)|[Hnone Hret]].
    + left. exists d, p. split; [lia|]. split; [|done].
      intros d' Hd'. destruct (decide (d' = d0)) as [->|]; [done|]. apply Hnone. lia.
    + right. split; [|done].
      intros d Hd. destruct (decide (d = d0)) as [->|]; [done|]. apply Hnone. lia.
Qed.

(** The driver's loop is bounded by [rows * cols] and each explorer
    call stays within its fuel: the model never reports [OutOfFuel]. *)
Lemma deepen_fuel graph rows cols n d : deepen graph rows cols n d ≠ OutOfFuel.
Proof.
  revert d. induction n as [|n IH]; intros d; [done|]. cbn [deepen].
  pose proof (explore_with_fuel py_cell graph rows cols d (rows - 1) (cols - 1)) as Hfuel.
  fold (explore_maze_depth_limited graph rows cols d (rows - 1) (cols - 1)) in Hfuel.
  destruct (explore_maze_depth_limited graph rows cols d (rows - 1) (cols - 1))
    as [[p|]| |]; [|apply IH|done..].
  destruct (truthy p); [done|apply IH].
Qed.

Lemma solve_fuel graph rows cols : solve_maze_from_file graph rows cols ≠ OutOfFuel.
Proof. apply deepen_fuel. Qed.

(** * The claims *)

(** C1.  On the 3x4 grid of the module docstring,
    [iterative_deepening_dfs] returns exactly ["1S 1E 2E 1S"]. *)
Theorem example_grid_path :
  iterative_deepening_dfs example_grid 3 4 = Returns "1S 1E 2E 1S".
Proof. vm_compute. reflexivity. Qed.

(** The bare marker ["O"] of the docstring's grid has no direction part:
    a search that pops such a cell raises. *)
Example bare_marker_unrecognized :
  recognized "O" = false ∧ solve_maze_from_file [["O"]] 1 1 = Raises KeyError.
Proof. split; by vm_compute. Qed.

(** C2.  On a well-formed grid, a path returned by solve replays from
    (0,0), each label taking its count of unit steps in its direction,
    through in-bounds positions only, and ends on the target cell
    (rows-1, cols-1). *)
Theorem solve_replay_reaches_target graph rows cols s :
  well_formed graph rows cols = true →
  solve_maze_from_file graph rows cols = Returns s →
  s ≠ no_solution →
  ∃ ls, replay_path s = Some ls ∧
        Forall (in_bounds rows cols) ((0, 0) :: cells ls) ∧
        route_end (0, 0) ls = (rows - 1, cols - 1).
Proof.
  intros Hwf Hsolve Hs. destruct (solve_result _ _ _ _ Hsolve Hs) as [ls Hok].
  destruct (well_formed_inv _ _ _ Hwf) as (Hr & Hc & _).
  exists ls. split; [apply Hok|]. split; [|apply Hok].
  apply Forall_cons. split; [|apply Hok].
  unfold in_bounds, is_valid_bound. cbn [fst snd].
  rewrite !andb_true_iff, !Z.leb_le, !Z.ltb_lt. lia.
Qed.

Lemma solve_replay_reaches_target_witness :
  well_formed crossing_grid 3 3 = true ∧
  solve_maze_from_file crossing_grid 3 3 = Returns "2E 2SW 1NE 1SE" ∧
  "2E 2SW 1NE 1SE" ≠ no_solution ∧
  ∃ ls, replay_path "2E 2SW 1NE 1SE" = Some ls ∧
        Forall (in_bounds 3 3) ((0, 0) :: cells ls) ∧
        route_end (0, 0) ls = (3 - 1, 3 - 1).
Proof.
  assert (H1 : well_formed crossing_grid 3 3 = true) by (vm_compute; reflexivity).
  assert (H2 : solve_maze_from_file crossing_grid 3 3 = Returns "2E 2SW 1NE 1SE")
    by (vm_compute; reflexivity).
  assert (H3 : "2E 2SW 1NE 1SE" ≠ no_solution) by discriminate.
  split; [exact H1|]. split; [exact H2|]. split; [exact H3|].
  exact (solve_replay_reaches_target crossing_grid 3 3 "2E 2SW 1NE 1SE" H1 H2 H3).
Defined.

(** C3.  The code at the start of [explore_maze_depth_limited]: the
    stack holds one node at the origin with an empty path and depth 1,
    but its explored set, built by [set((0, 0))], is [{0}] and does not
    contain the position (0,0); on [revisit_grid] with depth limit 3
    the second pop pushes the origin again. *)
Theorem initial_explored_lacks_origin :
  initial_stack = [mkMazeNode 0 0 {[Int 0]} [] 1] ∧
  Forall (λ n, Tuple 0 0 ∉ explored n) initial_stack ∧
  ∃ n, pops py_cell revisit_grid 2 2 3 1 1 2 initial_stack = Continue [n] ∧
       (row n, col n) = (0, 0) ∧ path n = ["1E"; "1W"] ∧ depth n = 3.
Proof.
  split; [|split].
  - reflexivity.
  - apply Forall_singleton. cbn [explored]. unfold set_of_tuple.
    rewrite elem_of_list_to_set, !elem_of_cons, elem_of_nil. by intros [|[|]].
  - eexists. split; [vm_compute; reflexivity|]. by cbn.
Qed.

(** C4, as stated, fails: on [crossing_grid] the returned path steps
    over (1,1) inside its second label and lands on it with its third,
    so the sequence of positions traversed repeats a position. *)
Lemma solve_path_repeats_position :
  well_formed crossing_grid 3 3 = true ∧
  solve_maze_from_file crossing_grid 3 3 = Returns "2E 2SW 1NE 1SE" ∧
  "2E 2SW 1NE 1SE" ≠ no_solution ∧
  ∃ ls, replay_path "2E 2SW 1NE 1SE" = Some ls ∧ ¬ NoDup ((0, 0) :: cells ls).
Proof.
  split; [by vm_compute|]. split; [by vm_compute|]. split; [discriminate|].
  eexists. split; [vm_compute; reflexivity|].
  cbn. intros Hnd. apply NoDup_cons in Hnd as [_ Hnd].
  do 2 apply NoDup_cons in Hnd as [_ Hnd]. apply NoDup_cons in Hnd as [Hin _].
  apply Hin. set_solver.
Qed.

(** C4, amended.  On a well-formed grid, the landing cells of the
    labels of a path returned by solve are pairwise distinct. *)
Theorem solve_landings_distinct graph rows cols s :
  well_formed graph rows cols = true →
  solve_maze_from_file graph rows cols = Returns s →
  s ≠ no_solution →
  ∃ ls, replay_path s = Some ls ∧ NoDup (landings ls).
Proof.
  intros _ Hsolve Hs. destruct (solve_result _ _ _ _ Hsolve Hs) as [ls Hok].
  exists ls. split; apply Hok.
Qed.

Lemma solve_landings_distinct_witness :
  well_formed crossing_grid 3 3 = true ∧
  solve_maze_from_file crossing_grid 3 3 = Returns "2E 2SW 1NE 1SE" ∧
  "2E 2SW 1NE 1SE" ≠ no_solution ∧
  ∃ ls, replay_path "2E 2SW 1NE 1SE" = Some ls ∧ NoDup (landings ls).
Proof.
  assert (H1 : well_formed crossing_grid 3 3 = true) by (vm_compute; reflexivity).
  assert (H2 : solve_maze_from_file crossing_grid 3 3 = Returns "2E 2SW 1NE 1SE")
    by (vm_compute; reflexivity).
  assert (H3 : "2E 2SW 1NE 1SE" ≠ no_solution) by discriminate.
  split; [exact H1|]. split; [exact H2|]. split; [exact H3|].
  exact (solve_landings_distinct crossing_grid 3 3 "2E 2SW 1NE 1SE" H1 H2 H3).
Defined.

(** C7, as stated, fails: on [same_colour_grid] the only label of the
    returned path starts on a B cell and lands on the B target. *)
Lemma solve_final_label_same_colour :
  well_formed same_colour_grid 1 2 = true ∧
  solve_maze_from_file same_colour_grid 1 2 = Returns "1E" ∧
  "1E" ≠ no_solution ∧
  ∃ ls, replay_path "1E" = Some ls ∧ ¬ Forall (colour_change same_colour_grid) ls.
Proof.
  split; [by vm_compute|]. split; [by vm_compute|]. split; [discriminate|].
  eexists. split; [vm_compute; reflexivity|].
  intros Hall. apply Forall_inv in Hall. by apply Hall.
Qed.

(** C7, amended.  On a well-formed grid, every label of a path
    returned by solve except the last marks a strict colour change
    between the cell it starts from and the cell it lands on. *)
Theorem solve_labels_change_colour graph rows cols s :
  well_formed graph rows cols = true →
  solve_maze_from_file graph rows cols = Returns s →
  s ≠ no_solution →
  ∃ ls, replay_path s = Some ls ∧ Forall (colour_change graph) (removelast ls).
Proof.
  intros _ Hsolve Hs. destruct (solve_result _ _ _ _ Hsolve Hs) as [ls Hok].
  exists ls. split; apply Hok.
Qed.

Lemma solve_labels_change_colour_witness :
  well_formed crossing_grid 3 3 = true ∧
  solve_maze_from_file crossing_grid 3 3 = Returns "2E 2SW 1NE 1SE" ∧
  "2E 2SW 1NE 1SE" ≠ no_solution ∧
  ∃ ls, replay_path "2E 2SW 1NE 1SE" = Some ls ∧
        Forall (colour_change crossing_grid) (removelast ls).
Proof.
  assert (H1 : well_formed crossing_grid 3 3 = true) by (vm_compute; reflexivity).
  assert (H2 : solve_maze_from_file crossing_grid 3 3 = Returns "2E 2SW 1NE 1SE")
    by (vm_compute; reflexivity).
  assert (H3 : "2E 2SW 1NE 1SE" ≠ no_solution) by discriminate.
  split; [exact H1|]. split; [exact H2|]. split; [exact H3|].
  exact (solve_labels_change_colour crossing_grid 3 3 "2E 2SW 1NE 1SE" H1 H2 H3).
Defined.

(** C5, as stated, fails: [unread_token_grid] holds the unrecognized
    token ["R-X"], yet solve raises nothing and returns a path, because
    the cell is never popped. *)
Lemma solve_ignores_unread_token :
  py_cell unread_token_grid 0 1 = Some "R-X" ∧
  recognized "R-X" = false ∧
  solve_maze_from_file unread_token_grid 1 2 = Returns "1E".
Proof. split; [done|]. split; by vm_compute. Qed.

(** C5, amended.  solve validates no token up front; it fails with the
    [KeyError] of the [directions] lookup whenever the search, at the
    first depth limit that does not end in [None], pops a node standing
    on a cell whose direction token is unrecognized -- it never treats
    such a token as no movement. *)
Theorem solve_raises_on_popped_token graph rows cols max_depth k current stack tok :
  1 ≤ max_depth ≤ rows * cols →
  (∀ d, 1 ≤ d < max_depth →
     explore_maze_depth_limited graph rows cols d (rows - 1) (cols - 1) = Returns None) →
  pops py_cell graph rows cols max_depth (rows - 1) (cols - 1) k initial_stack
    = Continue (current :: stack) →
  py_cell graph (row current) (col current) = Some tok →
  recognized tok = false →
  solve_maze_from_file graph rows cols = Raises KeyError.
Proof.
  intros Hmd Hnone Hpops Htok Hbad%unrecognized_direction.
  assert (Hpop : pop_step py_cell graph rows cols max_depth (rows - 1) (cols - 1)
                   (current :: stack) = Raise KeyError).
  { cbn [pop_step]. rewrite Htok, for_count_unknown_direction by done.
    by rewrite seqZ_cons by lia. }
  assert (Hexp : explore_maze_depth_limited graph rows cols max_depth (rows - 1) (cols - 1)
                 = Raises KeyError).
  { unfold explore_maze_depth_limited, explore_with. rewrite while_stack_pops.
    pose proof (pops_within_fuel _ _ _ _ _ _ _ _ _ _ Hpops) as Hk.
    replace (2 ^ explore_fuel max_depth)%nat
      with (k + (1 + (2 ^ explore_fuel max_depth - (k + 1))))%nat by lia.
    rewrite pops_add, Hpops, pops_add. cbn [pops]. by rewrite Hpop. }
  unfold solve_maze_from_file, iterative_deepening_dfs. cbn zeta.
  replace (Z.to_nat (rows * cols - 1 + 1))
    with (Z.to_nat (max_depth - 1) + S (Z.to_nat (rows * cols - max_depth)))%nat by lia.
  rewrite deepen_skip_many by (intros d' Hd'; apply Hnone; lia).
  replace (1 + Z.of_nat (Z.to_nat (max_depth - 1))) with max_depth by lia.
  cbn [deepen]. by rewrite Hexp.
Qed.

Lemma solve_raises_on_popped_token_witness :
  solve_maze_from_file popped_token_grid 2 2 = Raises KeyError.
Proof.
  apply (solve_raises_on_popped_token popped_token_grid 2 2 2 1
           (mkMazeNode 0 1 ({[Int 0]} ∪ {[Tuple 0 1]}) ["1E"] 2) [] "R-X").
  - lia.
  - intros d Hd. assert (d = 1) as -> by lia. vm_compute. reflexivity.
  - vm_compute. reflexivity.
  - vm_compute. reflexivity.
  - vm_compute. reflexivity.
Defined.

(** C6, as stated, fails: on the 1x1 grid [["B-S"]] solve returns the
    no-solution sentinel, which is neither an empty path nor an
    "already at target" result. *)
Lemma single_cell_returns_sentinel :
  well_formed [["B-S"]] 1 1 = true ∧
  solve_maze_from_file [["B-S"]] 1 1 = Returns no_solution ∧
  no_solution ≠ "".
Proof. split; [by vm_compute|]. split; [by vm_compute|discriminate]. Qed.

Lemma pop_single_cell tok d :
  directions !! upper (slice_from 2 tok) = Some d →
  pop_step py_cell [[tok]] 1 1 1 0 0 initial_stack =
    if is_valid_bound d.1 d.2 1 1 then Return ("1" +:+ slice_from 2 tok) else Continue [].
Proof.
  intros Hd.
  change (pop_step py_cell [[tok]] 1 1 1 0 0 initial_stack)
    with (for_count py_cell [[tok]] 1 1 1 0 0 (mkMazeNode 0 0 (set_of_tuple [Int 0; Int 0]) [] 1)
            (slice_from 2 tok) (slice_to 1 tok) [1] 0 0 []).
  cbn [for_count]. rewrite (get_next_position_shift _ d) by done.
  destruct d as [di dj]. unfold shift. cbn [fst snd].
  replace (0 + 1 * di) with di by lia. replace (0 + 1 * dj) with dj by lia.
  destruct (is_valid_bound di dj 1 1) eqn:Hvalid; [|done].
  assert (di = 0 ∧ dj = 0) as [-> ->].
  { unfold is_valid_bound in Hvalid. rewrite !andb_true_iff, !Z.leb_le, !Z.ltb_lt in Hvalid. lia. }
  reflexivity.
Qed.

Lemma explore_single_cell tok d :
  directions !! upper (slice_from 2 tok) = Some d →
  explore_maze_depth_limited [[tok]] 1 1 1 0 0 =
    if is_valid_bound d.1 d.2 1 1 then Returns (Some ("1" +:+ slice_from 2 tok))
    else Returns None.
Proof.
  intros Hd. unfold explore_maze_depth_limited, explore_with.
  change (explore_fuel 1) with 1%nat. cbn [while_stack].
  rewrite (pop_single_cell tok d Hd). by destruct (is_valid_bound d.1 d.2 1 1).
Qed.

(** C6, amended.  On a 1x1 grid whose token carries a recognized
    direction, solve returns the one-label path ["1<dir>"] when the
    direction is the no-movement marker O (compared
    case-insensitively), and the no-solution sentinel for each of the
    eight compass directions. *)
Theorem solve_single_cell tok :
  recognized tok = true →
  solve_maze_from_file [[tok]] 1 1 =
    Returns (if String.eqb (upper (slice_from 2 tok)) "O"
             then "1" +:+ slice_from 2 tok
             else no_solution).
Proof.
  intros [d Hd]%recognized_direction.
  pose proof (directions_table _ _ Hd) as Hin.
  unfold solve_maze_from_file, iterative_deepening_dfs.
  change (Z.to_nat (1 * 1 - 1 + 1)) with 1%nat. cbn [deepen].
  change (1 - 1) with 0. rewrite (explore_single_cell tok d Hd).
  unfold direction_table in Hin. rewrite !elem_of_cons, elem_of_nil in Hin.
  generalize dependent (slice_from 2 tok). intros dir _ Hin.
  repeat (destruct Hin as [Heq|Hin];
          [injection Heq as Hk Hdelta; rewrite Hk, Hdelta; reflexivity|]).
  done.
Qed.

Lemma solve_single_cell_witness :
  recognized "B-o" = true ∧
  solve_maze_from_file [["B-o"]] 1 1 = Returns "1o".
Proof.
  split; [vm_compute; reflexivity|].
  apply (solve_single_cell "B-o"). vm_compute. reflexivity.
Defined.

(** C8.  On a well-formed grid [iterative_deepening_dfs] tries the
    depth limits 1, 2, ..., rows*cols in increasing order: it returns
    the explorer's path at the first limit that yields one (every
    smaller limit having yielded [None]), and when every limit up to
    rows*cols yields [None] it returns the no-solution sentinel -- a
    value distinct from every path, returned and not raised. *)
Theorem iterative_deepening_first_success graph rows cols :
  well_formed graph rows cols = true →
  (∃ d p, 1 ≤ d ≤ rows * cols ∧
     (∀ d', 1 ≤ d' < d →
        explore_maze_depth_limited graph rows cols d' (rows - 1) (cols - 1) = Returns None) ∧
     explore_maze_depth_limited graph rows cols d (rows - 1) (cols - 1) = Returns (Some p) ∧
     iterative_deepening_dfs graph rows cols = Returns p ∧
     p ≠ no_solution)
  ∨ ((∀ d, 1 ≤ d ≤ rows * cols →
        explore_maze_depth_limited graph rows cols d (rows - 1) (cols - 1) = Returns None) ∧
     iterative_deepening_dfs graph rows cols = Returns no_solution).
Proof.
  intros Hwf. destruct (well_formed_inv _ _ _ Hwf) as (Hr & Hc & _).
  unfold iterative_deepening_dfs. cbn zeta.
  destruct (deepen_spec graph rows cols (Z.to_nat (rows * cols - 1 + 1)) 1 Hwf)
    as [(d & p & Hd & Hnone & Hsome & Hret & Hp)|[Hnone Hret]].
  - left. exists d, p. split; [nia|]. done.
  - right. split; [|done]. intros d Hd. apply Hnone. nia.
Qed.

Lemma iterative_deepening_first_success_witness :
  well_formed crossing_grid 3 3 = true ∧
  ((∃ d p, 1 ≤ d ≤ 3 * 3 ∧
     (∀ d', 1 ≤ d' < d →
        explore_maze_depth_limited crossing_grid 3 3 d' (3 - 1) (3 - 1) = Returns None) ∧
     explore_maze_depth_limited crossing_grid 3 3 d (3 - 1) (3 - 1) = Returns (Some p) ∧
     iterative_deepening_dfs crossing_grid 3 3 = Returns p ∧
     p ≠ no_solution)
  ∨ ((∀ d, 1 ≤ d ≤ 3 * 3 →
        explore_maze_depth_limited crossing_grid 3 3 d (3 - 1) (3 - 1) = Returns None) ∧
     iterative_deepening_dfs crossing_grid 3 3 = Returns no_solution)).
Proof.
  assert (H1 : well_formed crossing_grid 3 3 = true) by (vm_compute; reflexivity).
  split; [exact H1|].
  exact (iterative_deepening_first_success crossing_grid 3 3 H1).
Defined.

(** C9.  On a well-formed grid and for every depth limit >= 1,
    [explore_maze_depth_limited] terminates: the inner loop of a pop
    runs over the [max_depth] values of [count] (also on a cell whose
    direction is O), and after finitely many pops the stack is empty or
    the function has returned, so the call returns a path or [None]. *)
Theorem explore_terminates graph rows cols max_depth target_row target_col :
  well_formed graph rows cols = true →
  1 ≤ max_depth →
  length (seqZ 1 max_depth) = Z.to_nat max_depth ∧
  (∃ k, finished (pops py_cell graph rows cols max_depth target_row target_col
                    k initial_stack) = true) ∧
  (∃ r, explore_maze_depth_limited graph rows cols max_depth target_row target_col
          = Returns r).
Proof.
  intros Hwf Hmd. split; [apply length_seqZ|].
  destruct (explore_total graph rows cols max_depth target_row target_col Hwf) as [r Hr].
  split; [|by exists r].
  exists (2 ^ explore_fuel max_depth)%nat.
  unfold explore_maze_depth_limited, explore_with in Hr. rewrite while_stack_pops in Hr.
  by destruct (pops _ _ _ _ _ _ _ _ _) as [[|? ?]| |].
Qed.

Lemma explore_terminates_witness :
  well_formed same_colour_grid 1 2 = true ∧ 1 ≤ 2 ∧
  length (seqZ 1 2) = Z.to_nat 2 ∧
  (∃ k, finished (pops py_cell same_colour_grid 1 2 2 0 1 k initial_stack) = true) ∧
  (∃ r, explore_maze_depth_limited same_colour_grid 1 2 2 0 1 = Returns r).
Proof.
  assert (H1 : well_formed same_colour_grid 1 2 = true) by (vm_compute; reflexivity).
  assert (H2 : 1 ≤ 2) by lia.
  split; [exact H1|]. split; [exact H2|].
  exact (explore_terminates same_colour_grid 1 2 2 0 1 H1 H2).
Defined.

(** C10.  On a well-formed grid every cell read of
    [explore_maze_depth_limited] is in bounds: run behind a bounds
    assertion that faults on any read outside 0 <= r < rows,
    0 <= c < cols, the explorer behaves exactly as it does with
    Python's indexing, and it raises no [IndexError]. *)
Theorem explore_reads_in_bounds graph rows cols max_depth target_row target_col :
  well_formed graph rows cols = true →
  explore_with (checked_cell rows cols) graph rows cols max_depth target_row target_col
    = explore_maze_depth_limited graph rows cols max_depth target_row target_col ∧
  explore_with (checked_cell rows cols) graph rows cols max_depth target_row target_col
    ≠ Raises IndexError.
Proof.
  intros Hwf. destruct (well_formed_inv _ _ _ Hwf) as (Hr & Hc & _).
  rewrite explore_with_checked by done. split; [done|].
  destruct (explore_total graph rows cols max_depth target_row target_col Hwf) as [r ->].
  done.
Qed.

Lemma explore_reads_in_bounds_witness :
  well_formed crossing_grid 3 3 = true ∧
  explore_with (checked_cell 3 3) crossing_grid 3 3 4 2 2
    = explore_maze_depth_limited crossing_grid 3 3 4 2 2 ∧
  explore_with (checked_cell 3 3) crossing_grid 3 3 4 2 2 ≠ Raises IndexError.
Proof.
  assert (H1 : well_formed crossing_grid 3 3 = true) by (vm_compute; reflexivity).
  split; [exact H1|].
  exact (explore_reads_in_bounds crossing_grid 3 3 4 2 2 H1).
Defined.

(** * Further properties of the code *)

(** ** The grid helpers *)

(** X1.  [manhattan_distance] is a metric on grid positions: never
    negative, zero exactly between a position and itself, symmetric,
    and subject to the triangle inequality. *)
Theorem manhattan_distance_metric r1 c1 r2 c2 r3 c3 :
  0 ≤ manhattan_distance r1 c1 r2 c2 ∧
  (manhattan_distance r1 c1 r2 c2 = 0 ↔ (r1, c1) = (r2, c2)) ∧
  manhattan_distance r1 c1 r2 c2 = manhattan_distance r2 c2 r1 c1 ∧
  manhattan_distance r1 c1 r3 c3
    ≤ manhattan_distance r1 c1 r2 c2 + manhattan_distance r2 c2 r3 c3.
Proof.
  unfold manhattan_distance. split; [lia|]. split; [|split; lia].
  split; [intros H; f_equal; lia|intros [= -> ->]; lia].
Qed.

Lemma directions_delta k d :
  directions !! k = Some d →
  -1 ≤ d.1 ≤ 1 ∧ -1 ≤ d.2 ≤ 1 ∧ (d = (0, 0) ↔ k = "O").
Proof.
  intros Hin%directions_table. unfold direction_table in Hin.
  rewrite !elem_of_cons, elem_of_nil in Hin.
  repeat (destruct Hin as [Heq|Hin];
          [injection Heq as -> ->; cbn [fst snd]; split; [lia|]; split; [lia|];
           split; intros ?; congruence|]).
  done.
Qed.

(** X2.  When [get_next_position] succeeds it moves to the cell itself
    or to one of its eight neighbours: each coordinate changes by at
    most one, the position is unchanged exactly for direction O
    (compared case-insensitively), and the Manhattan distance to any
    target changes by at most two. *)
Theorem get_next_position_neighbour direction r c r' c' :
  get_next_position direction r c = Some (r', c') →
  Z.abs (r' - r) ≤ 1 ∧ Z.abs (c' - c) ≤ 1 ∧
  ((r', c') = (r, c) ↔ upper direction = "O") ∧
  ∀ target_row target_col,
    Z.abs (manhattan_distance r' c' target_row target_col
           - manhattan_distance r c target_row target_col) ≤ 2.
Proof.
  unfold get_next_position.
  destruct (directions !! upper direction) as [[di dj]|] eqn:Hd; [|done].
  intros [= <- <-]. destruct (directions_delta _ _ Hd) as (Hi & Hj & Hzero).
  cbn [fst snd] in *. split; [lia|]. split; [lia|]. split.
  - rewrite <- Hzero. split; intros [= ? ?]; f_equal; lia.
  - intros tr tc. unfold manhattan_distance. lia.
Qed.

Lemma get_next_position_neighbour_witness :
  get_next_position "se" 1 2 = Some (2, 3) ∧
  Z.abs (2 - 1) ≤ 1 ∧ Z.abs (3 - 2) ≤ 1 ∧
  ((2, 3) = (1, 2) ↔ upper "se" = "O") ∧
  ∀ target_row target_col,
    Z.abs (manhattan_distance 2 3 target_row target_col
           - manhattan_distance 1 2 target_row target_col) ≤ 2.
Proof.
  assert (H : get_next_position "se" 1 2 = Some (2, 3)) by (vm_compute; reflexivity).
  split; [exact H|]. exact (get_next_position_neighbour "se" 1 2 2 3 H).
Defined.

(** ** Single pops of the explorer *)

Lemma while_stack_done cell graph rows cols md tr tc n stack :
  (∀ stack', pop_step cell graph rows cols md tr tc stack ≠ Continue stack') →
  while_stack cell graph rows cols md tr tc n stack
    = pop_step cell graph rows cols md tr tc stack.
Proof.
  intros Hdone. induction n as [|n IH]; [done|]. cbn [while_stack]. rewrite IH.
  destruct (pop_step cell graph rows cols md tr tc stack) as [stack'| |] eqn:E; [|done..].
  by destruct (Hdone stack').
Qed.

Lemma for_count_no_movement graph rows cols md tr tc current cur_dir tok counts stack :
  py_cell graph (row current) (col current) = Some tok →
  upper cur_dir = "O" →
  (row current, col current) ≠ (tr, tc) →
  for_count py_cell graph rows cols md tr tc current cur_dir (slice_to 1 tok) counts
    (row current) (col current) stack = Continue stack.
Proof.
  intros Hcell Hdir Hnt.
  assert (Hstay : get_next_position cur_dir (row current) (col current)
                  = Some (row current, col current)).
  { rewrite (get_next_position_shift _ (0, 0)) by (by rewrite Hdir).
    unfold shift. cbn [fst snd]. do 2 f_equal; lia. }
  induction counts as [|count counts IH]; [done|].
  cbn [for_count]. rewrite Hstay.
  destruct (is_valid_bound (row current) (col current) rows cols); [|done].
  cbn [negb]. rewrite Hcell.
  destruct ((row current =? tr) && (col current =? tc)) eqn:Htarget.
  { apply andb_true_iff in Htarget as [?%Z.eqb_eq ?%Z.eqb_eq]. destruct Hnt. by f_equal. }
  rewrite String.eqb_refl. cbn [negb andb]. apply IH.
Qed.

(** X3.  A popped node standing on a cell whose direction is O
    (compared case-insensitively) and which is not the target is a dead
    end: the inner loop tests the same cell at every count, pushes
    nothing, and leaves the rest of the stack as it was. *)
Theorem pop_step_no_movement graph rows cols max_depth target_row target_col
    current stack tok :
  py_cell graph (row current) (col current) = Some tok →
  upper (slice_from 2 tok) = "O" →
  (row current, col current) ≠ (target_row, target_col) →
  pop_step py_cell graph rows cols max_depth target_row target_col (current :: stack)
    = Continue stack.
Proof.
  intros Hcell Hdir Hnt. cbn [pop_step]. rewrite Hcell.
  by apply for_count_no_movement.
Qed.

Lemma pop_step_no_movement_witness :
  pop_step py_cell marker_grid 1 3 3 0 2
    [mkMazeNode 0 1 ({[Int 0]} ∪ {[Tuple 0 1]}) ["1E"] 2;
     mkMazeNode 0 0 {[Int 0]} [] 1]
  = Continue [mkMazeNode 0 0 {[Int 0]} [] 1].
Proof.
  apply (pop_step_no_movement marker_grid 1 3 3 0 2
           (mkMazeNode 0 1 ({[Int 0]} ∪ {[Tuple 0 1]}) ["1E"] 2)
           [mkMazeNode 0 0 {[Int 0]} [] 1] "R-O").
  - vm_compute. reflexivity.
  - vm_compute. reflexivity.
  - cbn. discriminate.
Defined.

(** X4.  When the grid has no cell [graph[0][0]] (an empty grid, or an
    empty first row), solve raises [IndexError] at its first read as
    soon as rows*cols >= 1; with rows*cols <= 0 the loop of the driver
    is not entered and the sentinel is returned without any read. *)
Theorem solve_without_origin graph rows cols :
  py_cell graph 0 0 = None →
  solve_maze_from_file graph rows cols =
    if 1 <=? rows * cols then Raises IndexError else Returns no_solution.
Proof.
  intros Hcell. unfold solve_maze_from_file, iterative_deepening_dfs. cbn zeta.
  destruct (1 <=? rows * cols) eqn:Hsize.
  - apply Z.leb_le in Hsize.
    replace (Z.to_nat (rows * cols - 1 + 1)) with (S (Z.to_nat (rows * cols - 1))) by lia.
    cbn [deepen]. unfold explore_maze_depth_limited, explore_with.
    rewrite while_stack_done.
    + cbn [pop_step initial_stack row col]. by rewrite Hcell.
    + intros stack'. cbn [pop_step initial_stack row col]. by rewrite Hcell.
  - apply Z.leb_gt in Hsize.
    by replace (Z.to_nat (rows * cols - 1 + 1)) with O by lia.
Qed.

Lemma solve_without_origin_witness :
  py_cell [[]] 0 0 = None ∧
  solve_maze_from_file [[]] 1 1 = Raises IndexError.
Proof.
  assert (H : py_cell [[]] 0 0 = None) by (vm_compute; reflexivity).
  split; [exact H|]. exact (solve_without_origin [[]] 1 1 H).
Defined.

Lemma for_count_line_of_sight graph rows cols md tr tc current cur_dir cur_color d k :
  directions !! upper cur_dir = Some d →
  shift d k (row current, col current) = (tr, tc) →
  (∀ j, 1 ≤ j < k → shift d j (row current, col current) ≠ (tr, tc)) →
  (∀ j, 1 ≤ j ≤ k →
     is_valid_bound (shift d j (row current, col current)).1
       (shift d j (row current, col current)).2 rows cols = true ∧
     is_Some (py_cell graph (shift d j (row current, col current)).1
                (shift d j (row current, col current)).2)) →
  ∀ (m : nat) count (n : nat) r c stack,
    k = count + Z.of_nat m → 1 ≤ count → (m < n)%nat →
    (r, c) = shift d (count - 1) (row current, col current) →
    for_count py_cell graph rows cols md tr tc current cur_dir cur_color
      (seqZ count (Z.of_nat n)) r c stack
    = Return (join " " (path current ++ [str_of_int k +:+ cur_dir])).
Proof.
  intros Hd Hhit Hfirst Hline. induction m as [|m IH];
    intros count n r c stack Hk Hcount Hn Hcur.
  - assert (count = k) as -> by lia.
    destruct n as [|n]; [lia|]. rewrite seqZ_S_cons. cbn [for_count].
    rewrite (get_next_position_shift _ d) by done. rewrite Hcur, shift_shift.
    replace (k - 1 + 1) with k by lia.
    destruct (Hline k ltac:(lia)) as [Hvalid [tok Htok]].
    rewrite Hhit in *. cbn [fst snd] in *. rewrite Hvalid, Htok. cbn [negb].
    by rewrite !Z.eqb_refl.
  - destruct n as [|n]; [lia|]. rewrite seqZ_S_cons. cbn [for_count].
    rewrite (get_next_position_shift _ d) by done. rewrite Hcur, shift_shift.
    replace (count - 1 + 1) with count by lia.
    destruct (Hline count ltac:(lia)) as [Hvalid [tok Htok]].
    specialize (Hfirst count ltac:(lia)).
    destruct (shift d count (row current, col current)) as [nr nc] eqn:Hnext.
    cbn [fst snd] in *. rewrite Hvalid, Htok. cbn [negb].
    destruct ((nr =? tr) && (nc =? tc)) eqn:Htarget.
    { apply andb_true_iff in Htarget as [->%Z.eqb_eq ->%Z.eqb_eq]. done. }
    apply (IH (count + 1)); [lia|lia|lia|].
    rewrite <- Hnext. f_equal. lia.
Qed.

(** X5.  Line of sight: when [k] unit steps from the origin in the
    origin cell's direction first reach the target, through cells that
    are in bounds and present, the explorer called with any depth limit
    of at least [k] returns the one-label path ["<k><dir>"] at its
    first pop, whatever else the grid holds. *)
Theorem explore_line_of_sight graph rows cols max_depth target_row target_col tok d k :
  py_cell graph 0 0 = Some tok →
  directions !! upper (slice_from 2 tok) = Some d →
  1 ≤ k ≤ max_depth →
  shift d k (0, 0) = (target_row, target_col) →
  (∀ j, 1 ≤ j < k → shift d j (0, 0) ≠ (target_row, target_col)) →
  (∀ j, 1 ≤ j ≤ k →
     is_valid_bound (shift d j (0, 0)).1 (shift d j (0, 0)).2 rows cols = true ∧
     is_Some (py_cell graph (shift d j (0, 0)).1 (shift d j (0, 0)).2)) →
  explore_maze_depth_limited graph rows cols max_depth target_row target_col
    = Returns (Some (str_of_int k +:+ slice_from 2 tok)).
Proof.
  intros Hcell Hd Hk Hhit Hfirst Hline.
  assert (Hpop : pop_step py_cell graph rows cols max_depth target_row target_col
                   initial_stack = Return (str_of_int k +:+ slice_from 2 tok)).
  { cbn [pop_step initial_stack row col]. rewrite Hcell, seqZ_to_nat.
    etrans; [|reflexivity].
    apply (for_count_line_of_sight graph rows cols max_depth target_row target_col
             (mkMazeNode 0 0 (set_of_tuple [Int 0; Int 0]) [] 1) _ _ d k
             Hd Hhit Hfirst Hline (Z.to_nat (k - 1)) 1); [lia|lia|lia|].
    cbn [row col]. by rewrite shift_0. }
  unfold explore_maze_depth_limited, explore_with. rewrite while_stack_done.
  - by rewrite Hpop.
  - intros stack'. by rewrite Hpop.
Qed.

Lemma explore_line_of_sight_witness :
  explore_maze_depth_limited diagonal_grid 3 3 5 2 2 = Returns (Some "2SE").
Proof.
  apply (explore_line_of_sight diagonal_grid 3 3 5 2 2 "B-SE" (1, 1) 2).
  - vm_compute. reflexivity.
  - vm_compute. reflexivity.
  - lia.
  - vm_compute. reflexivity.
  - intros j Hj. assert (j = 1) as -> by lia. vm_compute. discriminate.
  - intros j Hj. assert (j = 1 ∨ j = 2) as [-> | ->] by lia;
      (split; [vm_compute; reflexivity|]); eexists; vm_compute; reflexivity.
Defined.

(** ** The bookkeeping of labels, counts and depth *)

Section RulesInvariant.
Variable graph : grid.
Variables final_rows final_cols max_depth target_row target_col : Z.

Local Abbreviation rules_ok := (rules_ok graph max_depth target_row target_col).
Local Abbreviation node_rules := (node_rules graph max_depth target_row target_col).
Local Abbreviation flow_rules := (flow_rules graph max_depth target_row target_col).

Lemma rules_ok_push here steps labels ls count tok d :
  rules_ok here steps labels ls →
  py_cell graph here.1 here.2 = Some tok →
  directions !! upper (slice_from 2 tok) = Some d →
  1 ≤ count ≤ max_depth →
  steps < max_depth →
  manhattan_distance (shift d count here).1 (shift d count here).2 target_row target_col
    ≤ max_depth - count →
  rules_ok (shift d count here) (steps + 1)
    (labels ++ [str_of_int count +:+ slice_from 2 tok])
    (ls ++ [mkLeg here (walk d (Z.to_nat count) here)]).
Proof.
  intros [Hrep Hend Hexit Hlim Hadm Hdepth Hbound Hsp] Hcell Hd Hc Hsteps Hman.
  assert (Hplain : plain (slice_from 2 tok) = true) by (by eapply recognized_plain).
  assert (Hparse : parse_label (str_of_int count +:+ slice_from 2 tok)
                   = Some (count, slice_from 2 tok))
    by (apply parse_label_format; [lia|done]).
  assert (Hle : leg_end (mkLeg here (walk d (Z.to_nat count) here)) = shift d count here)
    by (apply leg_end_walk; lia).
  split.
  - apply replay_snoc; [done|]. rewrite Hend. apply replay_label_format; [lia|done].
  - by rewrite route_end_snoc.
  - apply Forall2_app; [done|]. constructor; [|constructor]. by exists count, tok.
  - apply Forall_app. split; [done|]. apply Forall_singleton.
    by exists count, (slice_from 2 tok).
  - apply Forall2_app; [done|]. constructor; [|constructor].
    exists count, (slice_from 2 tok). by rewrite Hle.
  - rewrite length_app. cbn [length]. lia.
  - lia.
  - apply Forall_app. split; [done|]. apply Forall_singleton.
    apply no_space_format; [lia|done].
Qed.

Lemma rules_ok_finish here steps labels ls count tok d :
  rules_ok here steps labels ls →
  py_cell graph here.1 here.2 = Some tok →
  directions !! upper (slice_from 2 tok) = Some d →
  1 ≤ count ≤ max_depth →
  ∃ ls', path_rules graph max_depth target_row target_col
           (join " " (labels ++ [str_of_int count +:+ slice_from 2 tok])) ls'.
Proof.
  intros [Hrep Hend Hexit Hlim Hadm Hdepth Hbound Hsp] Hcell Hd Hc.
  assert (Hplain : plain (slice_from 2 tok) = true) by (by eapply recognized_plain).
  assert (Hparse : parse_label (str_of_int count +:+ slice_from 2 tok)
                   = Some (count, slice_from 2 tok))
    by (apply parse_label_format; [lia|done]).
  assert (Hsplit : split_spaces (join " " (labels ++ [str_of_int count +:+ slice_from 2 tok]))
                   = labels ++ [str_of_int count +:+ slice_from 2 tok]).
  { apply split_spaces_join; [by destruct labels|].
    apply Forall_app. split; [done|]. apply Forall_singleton.
    apply no_space_format; [lia|done]. }
  exists (ls ++ [mkLeg here (walk d (Z.to_nat count) here)]). split.
  - unfold replay_path. rewrite Hsplit. apply replay_snoc; [done|].
    rewrite Hend. apply replay_label_format; [lia|done].
  - rewrite Hsplit. apply Forall2_app; [done|]. constructor; [|constructor].
    by exists count, tok.
  - rewrite Hsplit. apply Forall_app. split; [done|]. apply Forall_singleton.
    by exists count, (slice_from 2 tok).
  - rewrite Hsplit, length_app. cbn [length]. specialize (Hbound ltac:(lia)). lia.
  - by rewrite Hsplit, !removelast_last.
Qed.

Lemma for_count_rules current tok d ls :
  rules_ok (row current, col current) (depth current) (path current) ls →
  py_cell graph (row current) (col current) = Some tok →
  directions !! upper (slice_from 2 tok) = Some d →
  ∀ (n : nat) count r c stack,
    1 ≤ count →
    count + Z.of_nat n ≤ max_depth + 1 →
    (r, c) = shift d (count - 1) (row current, col current) →
    Forall node_rules stack →
    flow_rules
      (for_count py_cell graph final_rows final_cols max_depth target_row target_col
         current (slice_from 2 tok) (slice_to 1 tok) (seqZ count (Z.of_nat n)) r c stack).
Proof.
  intros Hrules Hcell Hd. induction n as [|n IH]; intros count r c stack Hc Hn Hcur Hstack.
  { by rewrite seqZ_nil. }
  rewrite seqZ_S_cons. cbn [for_count].
  set (here := (row current, col current)) in *.
  rewrite (get_next_position_shift _ d) by done. rewrite Hcur, shift_shift.
  replace (count - 1 + 1) with count by lia.
  destruct (shift d count here) as [next_row next_col] eqn:Hq.
  destruct (is_valid_bound next_row next_col final_rows final_cols); [|done].
  cbn [negb].
  destruct (py_cell graph next_row next_col) as [next_tok|]; [|done].
  destruct ((next_row =? target_row) && (next_col =? target_col)).
  { eapply rules_ok_finish; [done..|lia]. }
  apply IH; [lia|lia|by rewrite <- Hq; f_equal; lia|].
  destruct (negb (String.eqb (slice_to 1 next_tok) (slice_to 1 tok))
            && negb (bool_decide (Tuple next_row next_col ∈ explored current))
            && (depth current <? max_depth)) eqn:Hcond; [|done].
  apply andb_true_iff in Hcond as [_ Hdepth%Z.ltb_lt].
  destruct (manhattan_distance next_row next_col target_row target_col <=? max_depth - count)
    eqn:Hman; [|done].
  apply Z.leb_le in Hman.
  apply Forall_cons. split; [|done].
  exists (ls ++ [mkLeg here (walk d (Z.to_nat count) here)]). cbn [row col depth path].
  pose proof (rules_ok_push here _ _ _ count tok d Hrules Hcell Hd) as Hpush.
  rewrite Hq in Hpush. apply Hpush; [lia|done|done].
Qed.

Lemma pop_step_rules stack :
  Forall node_rules stack →
  flow_rules (pop_step py_cell graph final_rows final_cols max_depth target_row target_col
                stack).
Proof.
  intros Hstack. destruct Hstack as [|current stack [ls Hrules] Hstack]; [by constructor|].
  cbn [pop_step].
  destruct (py_cell graph (row current) (col current)) as [tok|] eqn:Hcell; [|done].
  destruct (directions !! upper (slice_from 2 tok)) as [d|] eqn:Hd.
  - destruct (decide (0 ≤ max_depth)) as [Hmd|Hmd].
    + rewrite seqZ_to_nat. eapply for_count_rules; [done..|lia|lia|by rewrite shift_0|done].
    + by rewrite seqZ_nil by lia.
  - rewrite for_count_unknown_direction by done. by destruct (seqZ 1 max_depth).
Qed.

Lemma while_stack_rules n stack :
  Forall node_rules stack →
  flow_rules (while_stack py_cell graph final_rows final_cols max_depth target_row
                target_col n stack).
Proof.
  revert stack. induction n as [|n IH]; intros stack Hstack; [by apply pop_step_rules|].
  cbn [while_stack]. pose proof (IH stack Hstack) as H1.
  destruct (while_stack _ _ _ _ _ _ _ n stack) as [stack'| |]; [by apply IH|done..].
Qed.

Lemma initial_stack_rules : Forall node_rules initial_stack.
Proof.
  apply Forall_singleton. exists []. split; try done; try constructor.
Qed.

Lemma explore_path_rules s :
  explore_maze_depth_limited graph final_rows final_cols max_depth target_row target_col
    = Returns (Some s) →
  ∃ ls, path_rules graph max_depth target_row target_col s ls.
Proof.
  unfold explore_maze_depth_limited, explore_with.
  pose proof (while_stack_rules (explore_fuel max_depth) initial_stack initial_stack_rules)
    as H.
  destruct (while_stack _ _ _ _ _ _ _ _ _) as [[|? ?]|s'|]; try done.
  by intros [= <-].
Qed.
End RulesInvariant.

(** A path returned by the driver is one the explorer returned for
    some depth limit of the loop. *)
Lemma deepen_found graph rows cols n d0 s :
  deepen graph rows cols n d0 = Returns s →
  s = no_solution ∨
  ∃ d, d0 ≤ d < d0 + Z.of_nat n ∧
       explore_maze_depth_limited graph rows cols d (rows - 1) (cols - 1) = Returns (Some s).
Proof.
  revert d0. induction n as [|n IH]; intros d0; [intros [= <-]; by left|].
  cbn [deepen].
  destruct (explore_maze_depth_limited graph rows cols d0 (rows - 1) (cols - 1))
    as [[p|]| |] eqn:Hexp; [| |done..].
  - destruct (truthy p).
    + intros [= <-]. right. exists d0. split; [lia|done].
    + intros [?|(d & Hd & Hfound)]%IH; [by left|right]. exists d. split; [lia|done].
  - intros [?|(d & Hd & Hfound)]%IH; [by left|right]. exists d. split; [lia|done].
Qed.

(** X6.  A path returned by solve obeys the forced exits of the maze:
    replayed from the origin, every label carries exactly the direction
    part of the token of the cell its run starts from. *)
Theorem solve_labels_follow_exits graph rows cols s :
  solve_maze_from_file graph rows cols = Returns s →
  s ≠ no_solution →
  ∃ ls, replay_path s = Some ls ∧ Forall2 (follows_exit graph) (split_spaces s) ls.
Proof.
  intros [?|(d & _ & Hfound)]%deepen_found Hs; [done|].
  destruct (explore_path_rules _ _ _ _ _ _ _ Hfound) as [ls Hrules].
  exists ls. split; apply Hrules.
Qed.

Lemma solve_labels_follow_exits_witness :
  solve_maze_from_file crossing_grid 3 3 = Returns "2E 2SW 1NE 1SE" ∧
  "2E 2SW 1NE 1SE" ≠ no_solution ∧
  ∃ ls, replay_path "2E 2SW 1NE 1SE" = Some ls ∧
        Forall2 (follows_exit crossing_grid) (split_spaces "2E 2SW 1NE 1SE") ls.
Proof.
  assert (H1 : solve_maze_from_file crossing_grid 3 3 = Returns "2E 2SW 1NE 1SE")
    by (vm_compute; reflexivity).
  assert (H2 : "2E 2SW 1NE 1SE" ≠ no_solution) by discriminate.
  split; [exact H1|]. split; [exact H2|].
  exact (solve_labels_follow_exits crossing_grid 3 3 "2E 2SW 1NE 1SE" H1 H2).
Defined.

(** X7.  A path returned by [explore_maze_depth_limited] stays within
    its depth limit: it has at least one and at most [max_depth]
    labels, and the count of every label lies between 1 and
    [max_depth]. *)
Theorem explore_path_within_limit graph rows cols max_depth target_row target_col s :
  explore_maze_depth_limited graph rows cols max_depth target_row target_col
    = Returns (Some s) →
  1 ≤ Z.of_nat (length (split_spaces s)) ≤ max_depth ∧
  Forall (within_limit max_depth) (split_spaces s).
Proof.
  intros Hfound. destruct (explore_path_rules _ _ _ _ _ _ _ Hfound) as [ls Hrules].
  split; apply Hrules.
Qed.

Lemma explore_path_within_limit_witness :
  explore_maze_depth_limited crossing_grid 3 3 4 2 2 = Returns (Some "2E 2SW 1NE 1SE") ∧
  1 ≤ Z.of_nat (length (split_spaces "2E 2SW 1NE 1SE")) ≤ 4 ∧
  Forall (within_limit 4) (split_spaces "2E 2SW 1NE 1SE").
Proof.
  assert (H : explore_maze_depth_limited crossing_grid 3 3 4 2 2
              = Returns (Some "2E 2SW 1NE 1SE")) by (vm_compute; reflexivity).
  split; [exact H|].
  exact (explore_path_within_limit crossing_grid 3 3 4 2 2 "2E 2SW 1NE 1SE" H).
Defined.

(** X8.  The Manhattan pruning shows in every returned path: each label
    but the last lands on a cell whose Manhattan distance to the target
    is at most [max_depth] minus the label's count. *)
Theorem explore_path_admitted graph rows cols max_depth target_row target_col s :
  explore_maze_depth_limited graph rows cols max_depth target_row target_col
    = Returns (Some s) →
  ∃ ls, replay_path s = Some ls ∧
        Forall2 (admitted max_depth target_row target_col)
          (removelast (split_spaces s)) (removelast ls).
Proof.
  intros Hfound. destruct (explore_path_rules _ _ _ _ _ _ _ Hfound) as [ls Hrules].
  exists ls. split; apply Hrules.
Qed.

Lemma explore_path_admitted_witness :
  explore_maze_depth_limited crossing_grid 3 3 4 2 2 = Returns (Some "2E 2SW 1NE 1SE") ∧
  ∃ ls, replay_path "2E 2SW 1NE 1SE" = Some ls ∧
        Forall2 (admitted 4 2 2)
          (removelast (split_spaces "2E 2SW 1NE 1SE")) (removelast ls).
Proof.
  assert (H : explore_maze_depth_limited crossing_grid 3 3 4 2 2
              = Returns (Some "2E 2SW 1NE 1SE")) by (vm_compute; reflexivity).
  split; [exact H|].
  exact (explore_path_admitted crossing_grid 3 3 4 2 2 "2E 2SW 1NE 1SE" H).
Defined.

(** ** Labels of a returned path move *)

Lemma replay_label_inv p label l :
  replay_label p label = Some l →
  ∃ count dir d,
    parse_label label = Some (count, dir) ∧
    directions !! upper dir = Some d ∧
    l = mkLeg p (walk d (Z.to_nat count) p).
Proof.
  unfold replay_label. destruct (parse_label label) as [[count dir]|]; [|done].
  destruct (directions !! upper dir) as [d|] eqn:Hd; [|done].
  intros [= <-]. by exists count, dir, d.
Qed.







(** ** What the search reads of a token *)

Lemma upper_app s t : upper (s +:+ t) = upper s +:+ upper t.
Proof. induction s as [|c s IH]; [done|]. simpl. by rewrite IH. Qed.

Lemma upper_join labels :
  upper (join " " labels) = join " " (upper <$> labels).
Proof.
  induction labels as [|l labels IH]; [done|].
  destruct labels as [|l' labels]; [done|].
  change (join " " (l :: l' :: labels)) with (l +:+ " " +:+ join " " (l' :: labels)).
  rewrite !upper_app, IH. done.
Qed.

Lemma upper_labels_alike labels labels' :
  Forall2 (λ label label', upper label = upper label') labels labels' →
  upper <$> labels = upper <$> labels'.
Proof. induction 1 as [|l l' ls ls' Hl _ IH]; [done|]. cbn. by rewrite Hl, IH. Qed.

Lemma upper_all_digits s : all_digits s = true → upper s = s.
Proof.
  induction s as [|c s IH]; [done|]. cbn [all_digits upper].
  intros [Hc Hs]%andb_true_iff. rewrite IH by done. f_equal.
  destruct c as [[] [] [] [] [] [] [] []]; vm_compute in Hc |- *; congruence.
Qed.

Lemma truthy_upper s : truthy (upper s) = truthy s.
Proof. by destruct s. Qed.

Lemma get_next_position_upper dir dir' r c :
  upper dir = upper dir' → get_next_position dir r c = get_next_position dir' r c.
Proof. intros H. unfold get_next_position. by rewrite H. Qed.

Section Alike.
Variables graph graph' : grid.
Variables final_rows final_cols max_depth target_row target_col : Z.
Hypothesis Hcells : ∀ r c,
  is_valid_bound r c final_rows final_cols = true →
  option_Forall2 read_alike (py_cell graph r c) (py_cell graph' r c).

Local Abbreviation in_grid := (node_in_bounds final_rows final_cols).

Lemma for_count_alike current current' cur_dir cur_dir' cur_color counts :
  node_alike current current' →
  upper cur_dir = upper cur_dir' →
  ∀ r c stack stack',
    Forall2 node_alike stack stack' →
    flow_alike
      (for_count py_cell graph final_rows final_cols max_depth target_row target_col
         current cur_dir cur_color counts r c stack)
      (for_count py_cell graph' final_rows final_cols max_depth target_row target_col
         current' cur_dir' cur_color counts r c stack').
Proof.
  intros (Hrow & Hcol & Hexp & Hdepth & Hpath) Hdir.
  induction counts as [|count counts IH]; intros r c stack stack' Hstack; [done|].
  cbn [for_count]. rewrite (get_next_position_upper cur_dir cur_dir') by done.
  destruct (get_next_position cur_dir' r c) as [[next_row next_col]|]; [|done].
  destruct (is_valid_bound next_row next_col final_rows final_cols) eqn:Hvalid; [|done].
  cbn [negb].
  destruct (Hcells _ _ Hvalid) as [next_tok next_tok' [Hcolour _]|]; [|done].
  rewrite <- Hcolour.
  destruct ((next_row =? target_row) && (next_col =? target_col)).
  { cbn. rewrite !upper_join, !fmap_app, (upper_labels_alike _ _ Hpath). cbn.
    by rewrite !upper_app, Hdir. }
  apply IH. rewrite <- Hexp, <- Hdepth.
  destruct (negb (String.eqb (slice_to 1 next_tok) cur_color)
            && negb (bool_decide (Tuple next_row next_col ∈ explored current))
            && (depth current <? max_depth)); [|done].
  destruct (manhattan_distance next_row next_col target_row target_col <=? max_depth - count);
    [|done].
  constructor; [|done]. repeat split; cbn [row col explored depth path]; try done.
  apply Forall2_app; [done|]. constructor; [|constructor].
  by rewrite !upper_app, Hdir.
Qed.

Lemma pop_step_alike stack stack' :
  Forall in_grid stack →
  Forall2 node_alike stack stack' →
  flow_alike
    (pop_step py_cell graph final_rows final_cols max_depth target_row target_col stack)
    (pop_step py_cell graph' final_rows final_cols max_depth target_row target_col stack').
Proof.
  intros Hin Hstack. destruct Hstack as [|current current' stack stack' Hcur Hstack];
    [by constructor|].
  apply Forall_cons in Hin as [Hin _]. cbn [pop_step].
  unfold node_in_bounds, in_bounds in Hin. cbn [fst snd] in Hin.
  pose proof Hcur as (Hrow & Hcol & _). rewrite <- Hrow, <- Hcol.
  destruct (Hcells _ _ Hin) as [tok tok' [Hcolour Hdir]|]; [|done].
  rewrite <- Hcolour. by apply for_count_alike.
Qed.

Lemma pops_alike k stack stack' :
  Forall in_grid stack →
  Forall2 node_alike stack stack' →
  flow_alike
    (pops py_cell graph final_rows final_cols max_depth target_row target_col k stack)
    (pops py_cell graph' final_rows final_cols max_depth target_row target_col k stack').
Proof.
  revert stack stack'. induction k as [|k IH]; intros stack stack' Hin Hstack; [done|].
  cbn [pops]. pose proof (pop_step_alike stack stack' Hin Hstack) as Hpop.
  destruct (pop_step py_cell graph _ _ _ _ _ stack) as [stack1| |] eqn:E1;
    destruct (pop_step py_cell graph' _ _ _ _ _ stack') as [stack1'| |] eqn:E1';
    try done.
  apply IH; [|done]. by eapply pop_step_in_bounds.
Qed.

Lemma explore_alike :
  1 ≤ final_rows → 1 ≤ final_cols →
  outcome_map (fmap upper)
    (explore_maze_depth_limited graph final_rows final_cols max_depth target_row target_col)
  = outcome_map (fmap upper)
    (explore_maze_depth_limited graph' final_rows final_cols max_depth target_row target_col).
Proof.
  intros Hr Hc. unfold explore_maze_depth_limited, explore_with. rewrite !while_stack_pops.
  pose proof (pops_alike (2 ^ explore_fuel max_depth) initial_stack initial_stack
    (initial_stack_in_bounds _ _ Hr Hc)) as Halike.
  destruct (pops py_cell graph _ _ _ _ _ _ _) as [[|? ?]| |];
    destruct (pops py_cell graph' _ _ _ _ _ _ _) as [[|? ?]| |]; cbn in *.
  all: try done.
  all: try (exfalso; apply Halike; repeat constructor; done).
  all: try by (apply Forall2_length in Halike; [|repeat constructor; done]).
  - cbn. by rewrite Halike by (repeat constructor; done).
  - by rewrite Halike by (repeat constructor; done).
Qed.
End Alike.

Lemma deepen_alike graph graph' rows cols n d :
  1 ≤ rows → 1 ≤ cols →
  (∀ r c, is_valid_bound r c rows cols = true →
          option_Forall2 read_alike (py_cell graph r c) (py_cell graph' r c)) →
  outcome_map upper (deepen graph rows cols n d)
  = outcome_map upper (deepen graph' rows cols n d).
Proof.
  intros Hr Hc Hcells. revert d. induction n as [|n IH]; intros d; [done|].
  cbn [deepen].
  pose proof (explore_alike graph graph' rows cols d (rows - 1) (cols - 1) Hcells Hr Hc)
    as Halike.
  destruct (explore_maze_depth_limited graph rows cols d (rows - 1) (cols - 1))
    as [[p|]| |];
    destruct (explore_maze_depth_limited graph' rows cols d (rows - 1) (cols - 1))
    as [[p'|]| |]; cbn in Halike; try discriminate.
  - injection Halike as Hp. rewrite <- (truthy_upper p), Hp, truthy_upper.
    destruct (truthy p'); [cbn; by rewrite Hp|apply IH].
  - apply IH.
  - by injection Halike as ->.
  - done.
Qed.

(** X10.  solve reads a token only through its first character (the
    colour) and the upper-cased text after its second character (the
    direction), and reads no cell outside the declared rows x cols:
    two grids that agree on these for every in-bounds cell give the
    same outcome, the returned strings being equal up to letter
    case. *)
Theorem solve_reads_tokens_alike graph graph' rows cols :
  1 ≤ rows → 1 ≤ cols →
  (∀ r c, is_valid_bound r c rows cols = true →
          option_Forall2 read_alike (py_cell graph r c) (py_cell graph' r c)) →
  outcome_map upper (solve_maze_from_file graph rows cols)
  = outcome_map upper (solve_maze_from_file graph' rows cols).
Proof.
  intros Hr Hc Hcells. unfold solve_maze_from_file, iterative_deepening_dfs. cbn zeta.
  apply deepen_alike; assumption.
Qed.

Lemma solve_reads_tokens_alike_witness :
  outcome_map upper (solve_maze_from_file crossing_grid 3 3)
  = outcome_map upper (solve_maze_from_file crossing_grid_variant 3 3).
Proof.
  apply (solve_reads_tokens_alike crossing_grid crossing_grid_variant 3 3); [lia|lia|].
  intros r c Hvalid. unfold is_valid_bound in Hvalid.
  rewrite !andb_true_iff, !Z.leb_le, !Z.ltb_lt in Hvalid.
  assert (r = 0 ∨ r = 1 ∨ r = 2) as [->|[->| ->]] by lia;
    (assert (c = 0 ∨ c = 1 ∨ c = 2) as [->|[->| ->]] by lia);
    vm_compute; constructor; split; reflexivity.
Defined.

(** ** The explorer finds a path exactly when a route exists *)

Section RouteSound.
Variable graph : grid.
Variables final_rows final_cols max_depth target_row target_col : Z.

Local Abbreviation route :=
  (route graph final_rows final_cols max_depth target_row target_col).
Local Abbreviation has_route :=
  (has_route graph final_rows final_cols max_depth target_row target_col).
Local Abbreviation extends_to_route :=
  (extends_to_route graph final_rows final_cols max_depth target_row target_col).
Local Abbreviation run_for :=
  (for_count py_cell graph final_rows final_cols max_depth target_row target_col).

Lemma for_count_sound current tok d :
  extends_to_route current →
  py_cell graph (row current) (col current) = Some tok →
  directions !! upper (slice_from 2 tok) = Some d →
  ∀ (n : nat) count r c stack,
    1 ≤ count →
    count + Z.of_nat n ≤ max_depth + 1 →
    (r, c) = shift d (count - 1) (row current, col current) →
    run_in_bounds final_rows final_cols d (count - 1) (row current, col current) →
    Forall extends_to_route stack →
    match run_for current (slice_from 2 tok) (slice_to 1 tok)
            (seqZ count (Z.of_nat n)) r c stack with
    | Continue stack' => Forall extends_to_route stack'
    | Return _ => route (0, 0) (set_of_tuple [Int 0; Int 0]) 1
    | Raise _ => True
    end.
Proof.
  intros Hext Hcell Hd. induction n as [|n IH];
    intros count r c stack Hc Hn Hcur Hrun Hstack.
  { by rewrite seqZ_nil. }
  rewrite seqZ_S_cons. cbn [for_count].
  set (here := (row current, col current)) in *.
  rewrite (get_next_position_shift _ d) by done. rewrite Hcur, shift_shift.
  replace (count - 1 + 1) with count by lia.
  destruct (shift d count here) as [next_row next_col] eqn:Hq.
  destruct (is_valid_bound next_row next_col final_rows final_cols) eqn:Hvalid; [|done].
  cbn [negb].
  assert (Hrun' : run_in_bounds final_rows final_cols d count here).
  { intros j Hj. destruct (decide (j = count)) as [->|]; [|apply Hrun; lia].
    by rewrite Hq. }
  destruct (py_cell graph next_row next_col) as [next_tok|] eqn:Hnext; [|done].
  destruct ((next_row =? target_row) && (next_col =? target_col)) eqn:Htarget.
  { apply andb_true_iff in Htarget as [->%Z.eqb_eq ->%Z.eqb_eq].
    apply Hext.
    apply (route_hit graph final_rows final_cols max_depth target_row target_col
             here _ _ tok d count); [exact Hcell|exact Hd|lia|exact Hrun'|exact Hq]. }
  specialize (IH (count + 1) next_row next_col).
  replace (count + 1 - 1) with count in IH by lia.
  apply IH; [lia|lia|by rewrite <- Hq|done|].
  destruct (negb (String.eqb (slice_to 1 next_tok) (slice_to 1 tok))
            && negb (bool_decide (Tuple next_row next_col ∈ explored current))
            && (depth current <? max_depth)) eqn:Hcond; [|done].
  apply andb_true_iff in Hcond as [[Hcol Hseen]%andb_true_iff Hdepth%Z.ltb_lt].
  apply negb_true_iff in Hcol, Hseen. apply String.eqb_neq in Hcol. apply bool_decide_eq_false in Hseen.
  destruct (manhattan_distance next_row next_col target_row target_col <=? max_depth - count)
    eqn:Hman; [|done].
  apply Z.leb_le in Hman. apply Forall_cons. split; [|done].
  intros Hchild. apply Hext. red in Hchild. cbn [row col explored depth] in Hchild.
  apply (route_branch graph final_rows final_cols max_depth target_row target_col
           here _ _ tok d count next_tok);
    rewrite ?Hq; cbn [fst snd]; try done. lia.
Qed.

Lemma pops_sound k stack :
  Forall extends_to_route stack →
  match pops py_cell graph final_rows final_cols max_depth target_row target_col k stack with
  | Continue stack' => Forall extends_to_route stack'
  | Return _ => route (0, 0) (set_of_tuple [Int 0; Int 0]) 1
  | Raise _ => True
  end.
Proof.
  revert stack. induction k as [|k IH]; intros stack Hstack; [done|].
  cbn [pops].
  assert (Hpop : match pop_step py_cell graph final_rows final_cols max_depth target_row
                         target_col stack with
                 | Continue stack' => Forall extends_to_route stack'
                 | Return _ => route (0, 0) (set_of_tuple [Int 0; Int 0]) 1
                 | Raise _ => True
                 end).
  { destruct Hstack as [|current stack Hcur Hstack]; [by constructor|].
    cbn [pop_step].
    destruct (py_cell graph (row current) (col current)) as [tok|] eqn:Hcell; [|done].
    destruct (directions !! upper (slice_from 2 tok)) as [d|] eqn:Hd.
    - destruct (decide (0 ≤ max_depth)) as [Hmd|Hmd].
      + rewrite seqZ_to_nat.
        eapply for_count_sound; [done..|lia|lia|by rewrite shift_0| |done].
        intros j Hj. lia.
      + by rewrite seqZ_nil by lia.
    - rewrite for_count_unknown_direction by done. by destruct (seqZ 1 max_depth). }
  destruct (pop_step _ _ _ _ _ _ _ stack) as [stack1| |]; [by apply IH|done..].
Qed.

Lemma explore_sound s :
  explore_maze_depth_limited graph final_rows final_cols max_depth target_row target_col
    = Returns (Some s) →
  route (0, 0) (set_of_tuple [Int 0; Int 0]) 1.
Proof.
  unfold explore_maze_depth_limited, explore_with. rewrite while_stack_pops.
  pose proof (pops_sound (2 ^ explore_fuel max_depth) initial_stack) as H.
  destruct (pops _ _ _ _ _ _ _ _ _) as [[|? ?]|s'|]; try done.
  intros _. apply H. apply Forall_singleton. by intros ?.
Qed.
End RouteSound.

Section RouteComplete.
Variable graph : grid.
Variables final_rows final_cols max_depth target_row target_col : Z.

Local Abbreviation route :=
  (route graph final_rows final_cols max_depth target_row target_col).
Local Abbreviation has_route :=
  (has_route graph final_rows final_cols max_depth target_row target_col).
Local Abbreviation run_for :=
  (for_count py_cell graph final_rows final_cols max_depth target_row target_col).

(** A loop that falls through keeps the stack it started with. *)
Lemma for_count_keeps_route current cur_dir cur_color counts r c stack :
  Exists has_route stack →
  match run_for current cur_dir cur_color counts r c stack with
  | Continue stack' => Exists has_route stack'
  | _ => True
  end.
Proof.
  intros Hstack.
  destruct (run_for current cur_dir cur_color counts r c stack) as [stack'| |] eqn:Hrun;
    [|done..].
  apply for_count_pushes in Hrun as (pushed & -> & _). apply Exists_app. by right.
Qed.

(** While the loop walks the first run of a route from [current], it
    returns, raises, or ends with a stack holding a node that has a
    route. *)
Lemma for_count_complete current tok d first :
  py_cell graph (row current) (col current) = Some tok →
  directions !! upper (slice_from 2 tok) = Some d →
  1 ≤ first ≤ max_depth →
  run_in_bounds final_rows final_cols d first (row current, col current) →
  (shift d first (row current, col current) = (target_row, target_col) ∨
   ∃ tok',
     py_cell graph (shift d first (row current, col current)).1
       (shift d first (row current, col current)).2 = Some tok' ∧
     slice_to 1 tok' ≠ slice_to 1 tok ∧
     (Tuple (shift d first (row current, col current)).1
        (shift d first (row current, col current)).2 ∉ explored current) ∧
     (depth current < max_depth) ∧
     (manhattan_distance (shift d first (row current, col current)).1
        (shift d first (row current, col current)).2 target_row target_col
        ≤ max_depth - first) ∧
     route (shift d first (row current, col current))
       (explored current ∪ {[Tuple (shift d first (row current, col current)).1
                                (shift d first (row current, col current)).2]})
       (depth current + 1)) →
  ∀ (n : nat) count r c stack,
    1 ≤ count ≤ first →
    count + Z.of_nat n = max_depth + 1 →
    (r, c) = shift d (count - 1) (row current, col current) →
    match run_for current (slice_from 2 tok) (slice_to 1 tok)
            (seqZ count (Z.of_nat n)) r c stack with
    | Continue stack' => Exists has_route stack'
    | _ => True
    end.
Proof.
  intros Hcell Hd Hfirst Hrun Hland. induction n as [|n IH];
    intros count r c stack Hc Hn Hcur; [lia|].
  rewrite seqZ_S_cons. cbn [for_count].
  set (here := (row current, col current)) in *.
  rewrite (get_next_position_shift _ d) by done. rewrite Hcur, shift_shift.
  replace (count - 1 + 1) with count by lia.
  pose proof (Hrun count ltac:(lia)) as Hvalid. unfold in_bounds in Hvalid.
  destruct (decide (count = first)) as [->|Hlt].
  - destruct (shift d first here) as [next_row next_col] eqn:Hq. cbn [fst snd] in *.
    rewrite Hvalid. cbn [negb].
    destruct Hland as [[= -> ->]|(tok' & Htok' & Hcol & Hseen & Hdepth & Hman & Hroute)].
    { destruct (py_cell graph target_row target_col); [|done]. by rewrite !Z.eqb_refl. }
    rewrite Htok'.
    destruct ((next_row =? target_row) && (next_col =? target_col)); [done|].
    apply String.eqb_neq in Hcol. rewrite Hcol.
    rewrite (bool_decide_eq_false_2 _ Hseen). rewrite (proj2 (Z.ltb_lt _ _) Hdepth).
    cbn [negb andb]. rewrite (proj2 (Z.leb_le _ _) Hman).
    apply for_count_keeps_route. by apply Exists_cons_hd.
  - destruct (shift d count here) as [next_row next_col] eqn:Hq. cbn [fst snd] in *.
    rewrite Hvalid. cbn [negb].
    destruct (py_cell graph next_row next_col) as [next_tok|]; [|done].
    destruct ((next_row =? target_row) && (next_col =? target_col)); [done|].
    apply (IH (count + 1)); [lia|lia|].
    rewrite <- Hq. f_equal. lia.
Qed.

Lemma pop_step_complete stack :
  Exists has_route stack →
  match pop_step py_cell graph final_rows final_cols max_depth target_row target_col stack with
  | Continue stack' => Exists has_route stack'
  | _ => True
  end.
Proof.
  intros Hstack. destruct stack as [|current stack]; [by apply Exists_nil in Hstack|].
  cbn [pop_step].
  destruct (py_cell graph (row current) (col current)) as [tok|] eqn:Hcell; [|done].
  apply Exists_cons in Hstack as [Hcur|Hrest]; [|by apply for_count_keeps_route].
  red in Hcur. rewrite seqZ_to_nat.
  inversion Hcur as [p v k tok0 d count Htok0 Hd Hcount Hrun Hhit
                    |p v k tok0 d count tok' Htok0 Hd Hcount Hrun Htok' Hcol Hseen Hdepth
                       Hman Hroute]; subst; cbn [fst snd] in Htok0;
    rewrite Hcell in Htok0; injection Htok0 as <-.
  - eapply (for_count_complete current tok d count); try done; [by left|lia|lia|].
    by rewrite shift_0.
  - eapply (for_count_complete current tok d count); try done; [|lia|lia|].
    + right. by exists tok'.
    + by rewrite shift_0.
Qed.

Lemma pops_complete k stack :
  Exists has_route stack →
  match pops py_cell graph final_rows final_cols max_depth target_row target_col k stack with
  | Continue stack' => Exists has_route stack'
  | _ => True
  end.
Proof.
  revert stack. induction k as [|k IH]; intros stack Hstack; [done|].
  cbn [pops]. pose proof (pop_step_complete stack Hstack) as Hpop.
  destruct (pop_step _ _ _ _ _ _ _ stack) as [stack1| |]; [by apply IH|done..].
Qed.

Lemma explore_complete :
  well_formed graph final_rows final_cols = true →
  route (0, 0) (set_of_tuple [Int 0; Int 0]) 1 →
  ∃ s, explore_maze_depth_limited graph final_rows final_cols max_depth target_row
         target_col = Returns (Some s).
Proof.
  intros Hwf Hroute.
  destruct (explore_total graph final_rows final_cols max_depth target_row target_col Hwf)
    as [[s|] Hr]; [by exists s|].
  exfalso. unfold explore_maze_depth_limited, explore_with in Hr.
  rewrite while_stack_pops in Hr.
  pose proof (pops_complete (2 ^ explore_fuel max_depth) initial_stack) as H.
  destruct (pops _ _ _ _ _ _ _ _ _) as [[|? ?]| |]; try done.
  eapply Exists_nil, H. by apply Exists_cons_hd.
Qed.
End RouteComplete.

Lemma route_limit_mono graph rows cols md md' tr tc p visited steps :
  md ≤ md' →
  route graph rows cols md tr tc p visited steps →
  route graph rows cols md' tr tc p visited steps.
Proof.
  intros Hle. induction 1 as [p visited steps tok d count Htok Hd Hcount Hrun Hhit
                             |p visited steps tok d count tok' Htok Hd Hcount Hrun Htok'
                                Hcol Hseen Hdepth Hman _ IH].
  - apply (route_hit _ _ _ _ _ _ p visited steps tok d count); try done. lia.
  - apply (route_branch _ _ _ _ _ _ p visited steps tok d count tok'); try done; lia.
Qed.

(** X11.  Soundness and completeness of the depth-limited explorer: on
    a well-formed grid it returns a path exactly when a route exists
    from the initial node, that is, a chain of runs each of which
    passes the tests of the inner loop (exit direction of its start
    cell, bounds, count and depth within the limit, colour change, not
    yet explored, Manhattan test) and the last of which lands on the
    target. *)
Theorem explore_finds_path_iff_route graph rows cols max_depth target_row target_col :
  well_formed graph rows cols = true →
  (∃ s, explore_maze_depth_limited graph rows cols max_depth target_row target_col
          = Returns (Some s))
  ↔ route graph rows cols max_depth target_row target_col
      (0, 0) (set_of_tuple [Int 0; Int 0]) 1.
Proof.
  intros Hwf. split.
  - intros [s Hs]. by eapply explore_sound.
  - by apply explore_complete.
Qed.

Lemma explore_finds_path_iff_route_witness :
  well_formed crossing_grid 3 3 = true ∧
  ((∃ s, explore_maze_depth_limited crossing_grid 3 3 4 2 2 = Returns (Some s))
   ↔ route crossing_grid 3 3 4 2 2 (0, 0) (set_of_tuple [Int 0; Int 0]) 1).
Proof.
  assert (H : well_formed crossing_grid 3 3 = true) by (vm_compute; reflexivity).
  split; [exact H|]. exact (explore_finds_path_iff_route crossing_grid 3 3 4 2 2 H).
Defined.

(** X12.  Deepening never loses a solution: on a well-formed grid, if
    the explorer returns a path for some depth limit, it returns a path
    (possibly another one) for every larger limit. *)
Theorem explore_limit_monotone graph rows cols max_depth max_depth' target_row target_col s :
  well_formed graph rows cols = true →
  max_depth ≤ max_depth' →
  explore_maze_depth_limited graph rows cols max_depth target_row target_col
    = Returns (Some s) →
  ∃ s', explore_maze_depth_limited graph rows cols max_depth' target_row target_col
          = Returns (Some s').
Proof.
  intros Hwf Hle Hs. apply explore_complete; [done|].
  eapply route_limit_mono; [exact Hle|]. by eapply explore_sound.
Qed.

Lemma explore_limit_monotone_witness :
  well_formed crossing_grid 3 3 = true ∧ 4 ≤ 7 ∧
  explore_maze_depth_limited crossing_grid 3 3 4 2 2 = Returns (Some "2E 2SW 1NE 1SE") ∧
  ∃ s', explore_maze_depth_limited crossing_grid 3 3 7 2 2 = Returns (Some s').
Proof.
  assert (H1 : well_formed crossing_grid 3 3 = true) by (vm_compute; reflexivity).
  assert (H2 : 4 ≤ 7) by lia.
  assert (H3 : explore_maze_depth_limited crossing_grid 3 3 4 2 2
               = Returns (Some "2E 2SW 1NE 1SE")) by (vm_compute; reflexivity).
  split; [exact H1|]. split; [exact H2|]. split; [exact H3|].
  exact (explore_limit_monotone crossing_grid 3 3 4 7 2 2 "2E 2SW 1NE 1SE" H1 H2 H3).
Defined.

(** X13.  On a well-formed grid solve returns a path, and not the
    no-solution sentinel, exactly when a route to the target
    (rows-1, cols-1) exists under the largest depth limit the driver
    tries, rows*cols. *)
Theorem solve_finds_path_iff_route graph rows cols :
  well_formed graph rows cols = true →
  (∃ s, solve_maze_from_file graph rows cols = Returns s ∧ s ≠ no_solution)
  ↔ route graph rows cols (rows * cols) (rows - 1) (cols - 1)
      (0, 0) (set_of_tuple [Int 0; Int 0]) 1.
Proof.
  intros Hwf. destruct (well_formed_inv _ _ _ Hwf) as (Hr & Hc & _). split.
  - intros (s & Hsolve & Hs).
    apply deepen_found in Hsolve as [?|(d & Hd & Hfound)]; [done|].
    apply (route_limit_mono _ _ _ d); [nia|]. by eapply explore_sound.
  - intros Hroute.
    destruct (explore_complete _ _ _ _ _ _ Hwf Hroute) as [s' Hs'].
    destruct (deepen_spec graph rows cols (Z.to_nat (rows * cols - 1 + 1)) 1 Hwf)
      as [(d & p & _ & _ & _ & Hret & Hp)|[Hnone _]].
    + by exists p.
    + rewrite Hnone in Hs' by nia. done.
Qed.

Lemma solve_finds_path_iff_route_witness :
  well_formed crossing_grid 3 3 = true ∧
  ((∃ s, solve_maze_from_file crossing_grid 3 3 = Returns s ∧ s ≠ no_solution)
   ↔ route crossing_grid 3 3 (3 * 3) (3 - 1) (3 - 1) (0, 0) (set_of_tuple [Int 0; Int 0]) 1).
Proof.
  assert (H : well_formed crossing_grid 3 3 = true) by (vm_compute; reflexivity).
  split; [exact H|]. exact (solve_finds_path_iff_route crossing_grid 3 3 H).
Defined.

(** ** Grids of one colour *)

Lemma last_default_or_elem {A} (l : list A) d : List.last l d = d ∨ List.last l d ∈ l.
Proof.
  revert d. induction l as [|x l IH]; intros d; [by left|]. right.
  rewrite last_cons_default. destruct (IH x) as [->|Hin].
  - apply elem_of_cons. by left.
  - apply elem_of_cons. by right.
Qed.

Lemma replay_first_start p labels l ls :
  replay p labels = Some (l :: ls) → leg_start l = p.
Proof.
  destruct labels as [|label labels]; [done|]. cbn [replay].
  destruct (replay_label p label) as [l0|] eqn:E0; [|done].
  destruct (replay (leg_end l0) labels); [|done]. intros [= <- _].
  by apply replay_label_inv in E0 as (? & ? & ? & _ & _ & ->).
Qed.

(** X14.  Cells of one colour are walked over, never branched into: on
    a grid whose in-bounds cells all show the colour of the origin, a
    path returned by solve consists of a single label. *)
Theorem solve_single_colour graph rows cols s :
  1 ≤ rows → 1 ≤ cols →
  (∀ r c, is_valid_bound r c rows cols = true → colour graph (r, c) = colour graph (0, 0)) →
  solve_maze_from_file graph rows cols = Returns s →
  s ≠ no_solution →
  length (split_spaces s) = 1%nat.
Proof.
  intros Hr Hc Hmono Hsolve Hs.
  destruct (solve_result _ _ _ _ Hsolve Hs) as [ls [Hrep _ Hbnd _ Hcol _]].
  apply deepen_found in Hsolve as [?|(d & _ & Hfound)]; [done|].
  destruct (explore_path_rules _ _ _ _ _ _ _ Hfound) as [ls' [Hrep' Hexit _ Hlen _]].
  rewrite Hrep in Hrep'. injection Hrep' as <-.
  rewrite (Forall2_length _ _ _ Hexit) in *.
  destruct ls as [|l [|l' ls]]; [cbn in Hlen; lia|done|]. exfalso.
  cbn [removelast] in Hcol. apply Forall_cons in Hcol as [Hchange _].
  apply Hchange. rewrite (replay_first_start _ _ _ _ Hrep).
  destruct (last_default_or_elem (leg_cells l) (leg_start l)) as [Heq|Hin].
  - unfold leg_end. by rewrite Heq, (replay_first_start _ _ _ _ Hrep).
  - symmetry. destruct (leg_end l) as [er ec] eqn:Hend. apply Hmono.
    unfold cells in Hbnd. cbn [map concat] in Hbnd. apply Forall_app in Hbnd as [Hb _].
    rewrite Forall_forall in Hb. unfold leg_end in Hend. rewrite Hend in Hin.
    apply (Hb _ Hin).
Qed.

Lemma solve_single_colour_witness :
  solve_maze_from_file same_colour_grid 1 2 = Returns "1E" ∧
  length (split_spaces "1E") = 1%nat.
Proof.
  assert (H : solve_maze_from_file same_colour_grid 1 2 = Returns "1E")
    by (vm_compute; reflexivity).
  split; [exact H|].
  apply (solve_single_colour same_colour_grid 1 2 "1E"); [lia|lia| |exact H|discriminate].
  intros r c Hvalid. unfold is_valid_bound in Hvalid.
  rewrite !andb_true_iff, !Z.leb_le, !Z.ltb_lt in Hvalid.
  assert (r = 0) as -> by lia. assert (c = 0 ∨ c = 1) as [-> | ->] by lia; reflexivity.
Defined.

(** ** A bound on the work of one exploration *)

(** X15.  Whatever the grid, the [while] loop of
    [explore_maze_depth_limited] is over after at most
    (max_depth + 1) ^ (max_depth - 1) pops: from then on the stack is
    empty, or the function has returned or raised. *)
Theorem explore_pops_bounded graph rows cols max_depth target_row target_col k :
  ((Z.to_nat max_depth + 1) ^ Z.to_nat (max_depth - 1) ≤ k)%nat →
  match pops py_cell graph rows cols max_depth target_row target_col k initial_stack with
  | Continue (_ :: _) => False
  | _ => True
  end.
Proof.
  intros Hk.
  destruct (pops py_cell graph rows cols max_depth target_row target_col k initial_stack)
    as [[|n stack]| |] eqn:Hrun; try done.
  apply pops_weight in Hrun as [?|Hw]; [done|].
  pose proof (stack_weight_cons_pos max_depth n stack) as Hpos.
  assert (stack_weight max_depth initial_stack
          ≤ (Z.to_nat max_depth + 1) ^ Z.to_nat (max_depth - 1))%nat; [|lia].
  unfold stack_weight, initial_stack, node_weight. cbn [sum_list_with depth].
  rewrite Nat.add_0_r. apply pops_bound_pow.
Qed.

Lemma explore_pops_bounded_witness :
  match pops py_cell crossing_grid 3 3 4 2 2 125 initial_stack with
  | Continue (_ :: _) => False
  | _ => True
  end.
Proof.
  apply (explore_pops_bounded crossing_grid 3 3 4 2 2 125).
  vm_compute. lia.
Defined.
